(** * database-service: the health-state engine of [src/index.ts]

    A shallow embedding of the service's global state, of its asynchronous
    functions ([fetchDatabaseCredentials], [initializeDatabase],
    [pingDatabase], [pingDependency], [pingDependencies]) and of the
    [/health] handler, followed by the properties the specification states
    about them.

    Modelling conventions.
    - The module-level [let] bindings ([dbPool], [isHealthy],
      [dbConnectionString], [dependencyHealth]) are the fields of [Machine].
    - Every [async] function is a computation in the monad [M]: it reads the
      outcomes of its external calls (Secrets Manager, [pg], [fetch]) from a
      [World], threads the machine state, may complete abruptly ([Throw]) and
      records the external calls it makes, in order, as a list of [Event]s.
      State written before a throw stays written, as in JavaScript.
    - One [World] describes what the collaborators answer during one timer
      tick. In the first part every awaited promise settles (resolves or
      rejects); [Module Pg] then refines the pool with pg-pool's
      bookkeeping, under which [end()] can stay pending, and the two are
      related by [refinement_agrees_until_failed_query].
    - [console.log] / [console.warn] / [console.error] and the [Date.now()]
      duration measurements have no effect on the state and are left out. *)

From Stdlib Require Import ZArith Floats.
From stdpp Require Import gmap strings list fin_maps.

Set Warnings "-register-all".

(** ** JavaScript values and completions *)

Module Js.

(** The values [JSON.parse] can produce. *)
Inductive json : Type :=
  | JNull
  | JBool (b : bool)
  | JNum (f : float)
  | JStr (s : string)
  | JArr (items : list json)
  | JObj (fields : gmap string json).

(** A JavaScript value as this program sees it: [None] is [undefined]. *)
Definition jsval : Type := option json.

(** ECMAScript [ToBoolean] on a JSON value. *)
Definition ToBoolean (v : json) : bool :=
  match v with
  | JNull => false
  | JBool b => b
  | JNum f => negb (PrimFloat.eqb f 0%float || PrimFloat.is_nan f)
  | JStr s => negb (String.eqb s "")
  | JArr _ => true
  | JObj _ => true
  end.

Definition truthy (v : jsval) : bool :=
  match v with
  | None => false
  | Some j => ToBoolean j
  end.

(** [!s] for a string that may be [undefined]. *)
Definition truthy_string (s : option string) : bool :=
  match s with
  | None => false
  | Some s => negb (String.eqb s "")
  end.

Inductive JsError : Type :=
  | Error (message : string)
  | TypeError
  | SyntaxError
  | Rejected (reason : string).

(** How an evaluation ends: with a value, or by throwing. *)
Inductive Completion (A : Type) : Type :=
  | Normal (a : A)
  | Throw (e : JsError).
Arguments Normal {A} a.
Arguments Throw {A} e.

Definition is_Throw {A} (c : Completion A) : Prop :=
  match c with
  | Normal _ => False
  | Throw _ => True
  end.

#[export] Instance Completion_ret : MRet Completion := fun _ a => Normal a.
#[export] Instance Completion_bind : MBind Completion := fun _ _ k c =>
  match c with
  | Normal a => k a
  | Throw e => Throw e
  end.

(** Property read [v.k] for the keys this program reads
    ([connectionString], [url], [dbUrl]): none of them is defined on a
    built-in prototype, so only own properties of an object answer; reading
    a property of [null] throws a [TypeError]. *)
Definition Get (v : json) (k : string) : Completion jsval :=
  match v with
  | JNull => Throw TypeError
  | JObj fields => Normal (fields !! k)
  | JBool _ | JNum _ | JStr _ | JArr _ => Normal None
  end.

(** [a || b], with [b] evaluated only when [a] is falsy. *)
Definition or_else (a b : Completion jsval) : Completion jsval :=
  x ← a; if truthy x then Normal x else b.

End Js.
Import Js.

(** ** Collaborators: requests, events, worlds *)

(** Options object handed to [new Pool(...)]. *)
Record PoolConfig : Type := mkPoolConfig {
  connectionString : jsval;
  max : Z;
  idleTimeoutMillis : Z;
  connectionTimeoutMillis : Z;
  ssl_rejectUnauthorized : bool
}.

(** A [pg.Pool] object: its identity and the options it was built with. *)
Record Pool : Type := mkPool {
  pool_id : nat;
  pool_config : PoolConfig
}.

(** The [fetch(url, { method, signal: AbortSignal.timeout(ms) })] call. *)
Record Request : Type := mkRequest {
  req_url : string;
  req_method : string;
  req_timeout : Z
}.

Inductive FetchOutcome : Type :=
  | Response (status : Z)
  | NetworkError
  | TimedOut.

(** [response.ok] of the Fetch standard: the status is in 200..299. *)
Definition ok (status : Z) : bool := (200 <=? status)%Z && (status <=? 299)%Z.

(** External calls, in the order the program makes them. *)
Inductive Event : Type :=
  | EvGetSecretValue (region : string) (secretId : string)
  | EvPoolNew (id : nat) (cfg : PoolConfig)
  | EvConnect (id : nat)
  | EvQuery (id : nat) (sql : string)
  | EvRelease (id : nat)
  | EvPoolEnd (id : nat)
  | EvFetch (req : Request).

(** What the outside world answers during one tick. [w_fetch n req] is the
    outcome of [fetch(req)] when [n] fetches have settled before it;
    [w_order] is the order in which the probes of one [pingDependencies]
    round settle, as indices into [DEPENDENCIES]. *)
Record World : Type := mkWorld {
  w_send : Completion (option string);
  w_new_pool : Completion unit;
  w_connect : Completion unit;
  w_query : Completion unit;
  w_end : Completion unit;
  w_fetch : nat → Request → FetchOutcome;
  w_order : list nat
}.

(** ** Global state *)

Record Machine : Type := mkMachine {
  dbPool : option Pool;
  isHealthy : bool;
  dbConnectionString : jsval;
  dependencyHealth : gmap string bool;
  (* bookkeeping of the model: pool identities and fetch ordinals *)
  pools_created : nat;
  fetches_issued : nat
}.

Definition initial : Machine :=
  {| dbPool := None; isHealthy := false; dbConnectionString := None;
     dependencyHealth := ∅; pools_created := 0; fetches_issued := 0 |}.

Definition set_dbPool (p : option Pool) (m : Machine) : Machine :=
  {| dbPool := p; isHealthy := isHealthy m;
     dbConnectionString := dbConnectionString m;
     dependencyHealth := dependencyHealth m;
     pools_created := pools_created m; fetches_issued := fetches_issued m |}.

Definition set_isHealthy (b : bool) (m : Machine) : Machine :=
  {| dbPool := dbPool m; isHealthy := b;
     dbConnectionString := dbConnectionString m;
     dependencyHealth := dependencyHealth m;
     pools_created := pools_created m; fetches_issued := fetches_issued m |}.

Definition set_dbConnectionString (s : jsval) (m : Machine) : Machine :=
  {| dbPool := dbPool m; isHealthy := isHealthy m;
     dbConnectionString := s;
     dependencyHealth := dependencyHealth m;
     pools_created := pools_created m; fetches_issued := fetches_issued m |}.

(** [dependencyHealth.set(dep, healthy)] *)
Definition dependencyHealth_set (dep : string) (healthy : bool) (m : Machine)
  : Machine :=
  {| dbPool := dbPool m; isHealthy := isHealthy m;
     dbConnectionString := dbConnectionString m;
     dependencyHealth := <[dep := healthy]> (dependencyHealth m);
     pools_created := pools_created m; fetches_issued := fetches_issued m |}.

Definition set_pools_created (n : nat) (m : Machine) : Machine :=
  {| dbPool := dbPool m; isHealthy := isHealthy m;
     dbConnectionString := dbConnectionString m;
     dependencyHealth := dependencyHealth m;
     pools_created := n; fetches_issued := fetches_issued m |}.

Definition set_fetches_issued (n : nat) (m : Machine) : Machine :=
  {| dbPool := dbPool m; isHealthy := isHealthy m;
     dbConnectionString := dbConnectionString m;
     dependencyHealth := dependencyHealth m;
     pools_created := pools_created m; fetches_issued := n |}.

(** ** The monad of asynchronous functions *)

Definition M (A : Type) : Type :=
  World → Machine → Completion A * Machine * list Event.

#[export] Instance M_ret : MRet M := fun _ a _ m => (Normal a, m, []).

#[export] Instance M_bind : MBind M := fun _ _ k c w m =>
  match c w m with
  | (Normal a, m1, t1) =>
      match k a w m1 with
      | (r, m2, t2) => (r, m2, t1 ++ t2)
      end
  | (Throw e, m1, t1) => (Throw e, m1, t1)
  end.

Definition throw {A} (e : JsError) : M A := fun _ m => (Throw e, m, []).

(** [try { body } catch (e) { handler e }] *)
Definition try_catch {A} (body : M A) (handler : JsError → M A) : M A :=
  fun w m =>
    match body w m with
    | (Normal a, m1, t1) => (Normal a, m1, t1)
    | (Throw e, m1, t1) =>
        match handler e w m1 with
        | (r, m2, t2) => (r, m2, t1 ++ t2)
        end
    end.

(** [promise.catch(handler)] on an operation that returns a promise. *)
Definition promise_catch {A} (p : M A) (handler : JsError → M A) : M A :=
  try_catch p handler.

Definition emit (e : Event) : M unit := fun _ m => (Normal tt, m, [e]).
Definition read {A} (f : Machine → A) : M A := fun _ m => (Normal (f m), m, []).
Definition write (f : Machine → Machine) : M unit :=
  fun _ m => (Normal tt, f m, []).
Definition await {A} (f : World → Completion A) : M A :=
  fun w m => (f w, m, []).
Definition lift {A} (c : Completion A) : M A := fun _ m => (c, m, []).

(** Projections of the result of running a computation. *)
Definition result {A} (r : Completion A * Machine * list Event) : Completion A :=
  r.1.1.
Definition after {A} (r : Completion A * Machine * list Event) : Machine :=
  r.1.2.
Definition events {A} (r : Completion A * Machine * list Event) : list Event :=
  r.2.

(** *** Primitive operations of the collaborators *)

(** [client.send(new GetSecretValueCommand({ SecretId }))], giving
    [response.SecretString]. *)
Definition SecretsManager_send (region secretId : string) : M (option string) :=
  emit (EvGetSecretValue region secretId);; await w_send.

(** [new Pool(cfg)]: a pool object exists only if the constructor returns. *)
Definition new_Pool (cfg : PoolConfig) : M Pool :=
  fun w m =>
    match w_new_pool w with
    | Normal _ =>
        let id := pools_created m in
        (Normal (mkPool id cfg), set_pools_created (S id) m, [EvPoolNew id cfg])
    | Throw e => (Throw e, m, [])
    end.

Definition Pool_connect (p : Pool) : M unit :=
  emit (EvConnect (pool_id p));; await w_connect.
Definition client_query (p : Pool) (sql : string) : M unit :=
  emit (EvQuery (pool_id p) sql);; await w_query.
Definition client_release (p : Pool) : M unit :=
  emit (EvRelease (pool_id p)).
(** Here [end()] is a call whose answer the world gives, like the others.
    With pg-pool the answer is not free: [end()] stays pending while a
    client of the pool is checked out. [Module Pg] below refines the pool
    with that bookkeeping. *)
Definition Pool_end (p : Pool) : M unit :=
  emit (EvPoolEnd (pool_id p));; await w_end.

(** [fetch(req)]: resolves with a response, or rejects on a transport error
    or when the abort signal fires. *)
Definition fetch (req : Request) : M Z :=
  fun w m =>
    (match w_fetch w (fetches_issued m) req with
     | Response status => Normal status
     | NetworkError => Throw TypeError
     | TimedOut => Throw (Rejected "TimeoutError")
     end,
     set_fetches_issued (S (fetches_issued m)) m,
     [EvFetch req]).

(** ** The service *)

Section Service.

(** Configuration read from the environment at start-up, and [JSON.parse]
    ([None] is a [SyntaxError]). *)
Variable SERVICE_NAME : string.
Variable DB_SECRET_ARN : option string.
Variable DEPENDENCIES : list string.
Variable AWS_REGION : string.
Variable JSON_parse : string → option json.

(** [secret.connectionString || secret.url || secret.dbUrl] *)
Definition select_connectionString (secret : json) : Completion jsval :=
  or_else (or_else (Get secret "connectionString") (Get secret "url"))
          (Get secret "dbUrl").

Definition fetchDatabaseCredentials : M jsval :=
  if negb (truthy_string DB_SECRET_ARN) then
    throw (Error "DB_SECRET_ARN environment variable is required")
  else
    try_catch
      (SecretString ← SecretsManager_send AWS_REGION (default "" DB_SECRET_ARN);
       if negb (truthy_string SecretString) then
         throw (Error "Secret value is empty")
       else
         match JSON_parse (default "" SecretString) with
         | None => throw SyntaxError
         | Some secret =>
             connectionString ← lift (select_connectionString secret);
             if negb (truthy connectionString) then
               throw (Error "No connection string found in secret")
             else
               mret connectionString
         end)
      (fun error => throw error).

(** The outcome of the credential fetch in a given world. *)
Definition credentials (w : World) : Completion jsval :=
  result (fetchDatabaseCredentials w initial).

Definition pool_options (cs : jsval) : PoolConfig :=
  {| connectionString := cs;
     max := 5;
     idleTimeoutMillis := 30000;
     connectionTimeoutMillis := 10000;
     ssl_rejectUnauthorized := false |}.

Definition initializeDatabase : M unit :=
  try_catch
    (cs ← fetchDatabaseCredentials;
     write (set_dbConnectionString cs);;
     pool ← new_Pool (pool_options cs);
     write (set_dbPool (Some pool));;
     Pool_connect pool;;
     client_release pool;;
     write (set_isHealthy true))
    (fun _ => write (set_isHealthy false)).

Definition pingDatabase : M unit :=
  pool ← read dbPool;
  match pool with
  | None => initializeDatabase
  | Some pool =>
      try_catch
        (Pool_connect pool;;
         client_query pool "SELECT 1";;
         client_release pool;;
         write (set_isHealthy true))
        (fun _ =>
           write (set_isHealthy false);;
           pool ← read dbPool;
           match pool with
           | Some pool =>
               promise_catch (Pool_end pool) (fun _ => mret tt);;
               write (set_dbPool None)
           | None => mret tt
           end)
  end.

(** Liveness as the specification words it: a response was received and
    its status indicates success. *)
Definition liveness (outcome : FetchOutcome) : bool :=
  match outcome with
  | Response status => ok status
  | NetworkError => false
  | TimedOut => false
  end.

Definition probe_request (dependencyUrl : string) : Request :=
  {| req_url := dependencyUrl +:+ "/health";
     req_method := "GET";
     req_timeout := 5000 |}.

Definition pingDependency (dependencyUrl : string) : M bool :=
  try_catch
    (status ← fetch (probe_request dependencyUrl);
     let success := ok status in
     mret success)
    (fun _ => mret false).

(** The callback mapped over [DEPENDENCIES]. *)
Definition probe_and_record (dep : string) : M (string * bool) :=
  healthy ← pingDependency dep;
  write (dependencyHealth_set dep healthy);;
  mret (dep, healthy).

(** Running one promise to its settlement never throws in the awaiting
    code: the outcome is the settled status. *)
Definition settle {A} (task : M A) : M (Completion A) :=
  fun w m =>
    match task w m with
    | (r, m1, t1) => (Normal r, m1, t1)
    end.

(** The promises of [tasks] settle one after the other in the given order
    (indices into [tasks]); on a single-threaded event loop the part of a
    task that follows its [await] runs without interleaving. All requests
    of a round are in flight together; the history lists each one where
    its answer arrives. *)
Fixpoint settle_in_order {A} (tasks : list (M A)) (order : list nat) : M unit :=
  match order with
  | [] => mret tt
  | i :: rest =>
      match tasks !! i with
      | Some task => settle task;; settle_in_order tasks rest
      | None => settle_in_order tasks rest
      end
  end.

(** [await Promise.allSettled(tasks)]; the array of results is only
    counted for a log line. *)
Definition Promise_allSettled {A} (tasks : list (M A)) : M unit :=
  fun w m => settle_in_order tasks (w_order w) w m.

Definition pingDependencies : M unit :=
  if (length DEPENDENCIES =? 0)%nat then
    mret tt
  else
    Promise_allSettled (probe_and_record <$> DEPENDENCIES).

(** *** The [/health] handler *)

Record HealthStatus : Type := mkHealthStatus {
  service : string;
  status : string;
  timestamp : string;
  database : string;
  dependencies : gmap string bool
}.

(** [Object.fromEntries(map)]: one own property per entry of the map. *)
Definition Object_fromEntries (map : gmap string bool) : gmap string bool :=
  list_to_map (map_to_list map).

(** The object literal built by the handler; [now] is
    [new Date().toISOString()]. *)
Definition healthStatus (m : Machine) (now : string) : HealthStatus :=
  {| service := SERVICE_NAME;
     status := if isHealthy m then "healthy" else "unhealthy";
     timestamp := now;
     database := if isHealthy m then "connected" else "disconnected";
     dependencies := Object_fromEntries (dependencyHealth m) |}.

Definition statusCode (m : Machine) : Z := if isHealthy m then 200 else 503.

(** The JSON document [res.json(healthStatus)] sends. *)
Definition to_json (h : HealthStatus) : json :=
  JObj (<["service" := JStr (service h)]>
       (<["status" := JStr (status h)]>
       (<["timestamp" := JStr (timestamp h)]>
       (<["database" := JStr (database h)]>
       (<["dependencies" := JObj (JBool <$> dependencies h)]> ∅))))).

(** [GET /health]: the status code and the body. *)
Definition health (m : Machine) (now : string) : Z * json :=
  (statusCode m, to_json (healthStatus m now)).

(** Member of a JSON object; [None] when the member is absent. *)
Definition member (doc : json) (k : string) : option json :=
  match doc with
  | JObj fields => fields !! k
  | _ => None
  end.

(** *** Start-up and the timers, one tick at a time *)

Inductive Tick : Type :=
  | TickDatabase (w : World)
  | TickDependencies (w : World).

(** A run so far: the machine and everything it has asked of the world. *)
Definition Run : Type := Machine * list Event.

Definition exec {A} (c : M A) (w : World) (r : Run) : Run :=
  (after (c w r.1), r.2 ++ events (c w r.1)).

(** [main], from [initializeDatabase()] to [startPingTimers()]. *)
Definition main : M unit :=
  initializeDatabase;;
  if (0 <? length DEPENDENCIES)%nat then pingDependencies else mret tt.

(** The dependency timer exists only when dependencies are declared. A tick
    runs its callback to the end before the next one starts: the
    interleaving of the two timers' callbacks at their [await]s is not
    represented. *)
Definition tick (r : Run) (t : Tick) : Run :=
  match t with
  | TickDatabase w => exec pingDatabase w r
  | TickDependencies w =>
      if (0 <? length DEPENDENCIES)%nat then exec pingDependencies w r else r
  end.

Definition run (w0 : World) (ticks : list Tick) : Run :=
  fold_left tick ticks (exec main w0 (initial, [])).

(** *** Handles alive after a history *)

(** A pool is alive from its construction until [end()] is called on it. *)
Definition alive_step (alive : list nat) (e : Event) : list nat :=
  match e with
  | EvPoolNew id _ => id :: alive
  | EvPoolEnd id => filter (fun x => x ≠ id) alive
  | _ => alive
  end.

Definition alive (history : list Event) : list nat :=
  fold_left alive_step history [].

(** The handle the machine holds, if any. *)
Definition held (m : Machine) : list nat :=
  match dbPool m with
  | Some pool => [pool_id pool]
  | None => []
  end.

(** A history in which a pool is only ever constructed while no other one
    is alive; [before] lists the pools alive when the history starts. *)
Fixpoint exclusive (before : list nat) (history : list Event) : Prop :=
  match history with
  | [] => True
  | e :: rest =>
      match e with
      | EvPoolNew _ _ => before = []
      | _ => True
      end ∧ exclusive (alive_step before e) rest
  end.

(** What every run maintains: pools are constructed one at a time, and
    the pool alive is the one the machine holds. *)
Definition run_invariant (r : Run) : Prop :=
  exclusive [] r.2 ∧ alive r.2 = held r.1.

(** The fields a round of dependency probes leaves alone. *)
Definition same_store (m1 m2 : Machine) : Prop :=
  dbPool m1 = dbPool m2 ∧ isHealthy m1 = isHealthy m2 ∧
  dbConnectionString m1 = dbConnectionString m2 ∧
  pools_created m1 = pools_created m2.

Definition is_fetch (e : Event) : Prop :=
  match e with
  | EvFetch _ => True
  | _ => False
  end.

(** *** Recovery of the backing store *)

(** The secret is served and yields a connection string, and the database
    accepts pool construction, connections and queries. *)
Definition recovered (w : World) : Prop :=
  (∃ cs, credentials w = Normal cs) ∧
  w_new_pool w = Normal tt ∧
  w_connect w = Normal tt ∧
  w_query w = Normal tt.

(** A verification fails when the acquisition or the query rejects. *)
Definition verification_fails (w : World) : Prop :=
  is_Throw (w_connect w) ∨ is_Throw (w_query w).

(** *** The initial probe, as the specification words it: a connection
    acquisition followed by a trivial query on the same pool. *)
Definition acquire_then_query (history : list Event) : Prop :=
  ∃ before id sql after_, history = before ++ EvConnect id :: EvQuery id sql :: after_.

(** *** The selection rule of the credential fetch, as the specification
    words it: the first truthy value among the candidates, in order. *)
Fixpoint first_truthy (candidates : list jsval) : option json :=
  match candidates with
  | [] => None
  | Some v :: rest => if ToBoolean v then Some v else first_truthy rest
  | None :: rest => first_truthy rest
  end.

(** *** Graceful shutdown *)

(** [process.exit(code)] ends the process; the value of the computation is
    the exit code. *)
Definition process_exit (code : Z) : M Z := mret code.

(** [shutdown]: the awaited [dbPool.end()] has no handler here, so a
    rejection leaves the function before [process.exit(0)]. *)
Definition shutdown : M Z :=
  pool ← read dbPool;
  match pool with
  | Some pool => Pool_end pool
  | None => mret tt
  end;;
  process_exit 0.

(** *** Further predicates on histories *)

(** The pool an event operates on. *)
Definition used_pool (e : Event) : option nat :=
  match e with
  | EvConnect id => Some id
  | EvQuery id _ => Some id
  | EvRelease id => Some id
  | EvPoolEnd id => Some id
  | EvGetSecretValue _ _ => None
  | EvPoolNew _ _ => None
  | EvFetch _ => None
  end.

Definition is_secret_request (e : option Event) : Prop :=
  match e with
  | Some (EvGetSecretValue _ _) => True
  | _ => False
  end.

(** Every request sent to a dependency is the probe of a declared one. *)
Definition declared_probe (e : Event) : Prop :=
  match e with
  | EvFetch req => ∃ dep, dep ∈ DEPENDENCIES ∧ req = probe_request dep
  | _ => True
  end.

(** In a round every declared dependency's probe settles. *)
Definition settles_all (w : World) : Prop :=
  ∀ i, i < length DEPENDENCIES → In i (w_order w).

(** The answer to a request does not depend on when it settles. *)
Definition stable_answers (w : World) : Prop :=
  ∀ n n' req, w_fetch w n req = w_fetch w n' req.

End Service.

(** ** A concrete deployment, used to run the model *)

Module Demo.

Definition quote : string := String (Ascii.ascii_of_nat 34) "".

(** The secret text: a JSON object with one member, [connectionString]. *)
Definition secret_text : string :=
  "{" +:+ quote +:+ "connectionString" +:+ quote +:+ ":"
      +:+ quote +:+ "postgres://db" +:+ quote +:+ "}".

Definition secret_object : gmap string json :=
  {[ "connectionString" := JStr "postgres://db" ]}.

(** [JSON.parse] restricted to the one text this deployment stores. *)
Definition JSON_parse (text : string) : option json :=
  if String.eqb text secret_text then Some (JObj secret_object) else None.

Definition arn : option string := Some "arn:aws:secretsmanager:demo".
Definition region : string := "us-east-1".
Definition name : string := "database-service".
Definition deps : list string := ["http://a"; "http://b"].

(** Everything answers. *)
Definition world_up : World :=
  {| w_send := Normal (Some secret_text);
     w_new_pool := Normal tt;
     w_connect := Normal tt;
     w_query := Normal tt;
     w_end := Normal tt;
     w_fetch := fun _ _ => Response 200;
     w_order := [0; 1]%nat |}.

(** The secret is served but the database refuses connections and
    queries; the first probe to settle is answered 500, the others time
    out, and the second dependency settles first. *)
Definition world_db_down : World :=
  {| w_send := Normal (Some secret_text);
     w_new_pool := Normal tt;
     w_connect := Throw (Rejected "ECONNREFUSED");
     w_query := Throw (Rejected "connection terminated");
     w_end := Throw (Rejected "end failed");
     w_fetch := fun n _ => if (n =? 0)%nat then Response 500 else TimedOut;
     w_order := [1; 0]%nat |}.

(** As [world_db_down], except that the second dependency answers 200. *)
Definition world_b_answers : World :=
  {| w_send := w_send world_db_down;
     w_new_pool := w_new_pool world_db_down;
     w_connect := w_connect world_db_down;
     w_query := w_query world_db_down;
     w_end := w_end world_db_down;
     w_fetch := fun n req =>
       if String.eqb (req_url req) "http://b/health" then Response 200
       else w_fetch world_db_down n req;
     w_order := w_order world_db_down |}.

(** The Secrets Manager call is rejected. *)
Definition world_secret_down : World :=
  {| w_send := Throw (Rejected "AccessDeniedException");
     w_new_pool := w_new_pool world_up;
     w_connect := w_connect world_up;
     w_query := w_query world_up;
     w_end := w_end world_up;
     w_fetch := w_fetch world_up;
     w_order := w_order world_up |}.

(** The secret is served but its text is not the JSON this deployment
    stores. *)
Definition world_bad_secret : World :=
  {| w_send := Normal (Some "postgres://db");
     w_new_pool := w_new_pool world_up;
     w_connect := w_connect world_up;
     w_query := w_query world_up;
     w_end := w_end world_up;
     w_fetch := w_fetch world_up;
     w_order := w_order world_up |}.

(** Connections are accepted but queries fail. *)
Definition world_query_down : World :=
  {| w_send := w_send world_up;
     w_new_pool := w_new_pool world_up;
     w_connect := Normal tt;
     w_query := Throw (Rejected "connection terminated");
     w_end := Normal tt;
     w_fetch := w_fetch world_up;
     w_order := w_order world_up |}.

(** As [world_up], with the probes settling in the other order. *)
Definition world_up_reordered : World :=
  {| w_send := w_send world_up;
     w_new_pool := w_new_pool world_up;
     w_connect := w_connect world_up;
     w_query := w_query world_up;
     w_end := w_end world_up;
     w_fetch := w_fetch world_up;
     w_order := [1; 0]%nat |}.

(** A machine holding a pool, as left by a successful initialisation. *)
Definition connected : Machine :=
  {| dbPool := Some (mkPool 0 (pool_options (Some (JStr "postgres://db"))));
     isHealthy := true;
     dbConnectionString := Some (JStr "postgres://db");
     dependencyHealth := {[ "A" := true; "B" := false ]};
     pools_created := 1;
     fetches_issued := 0 |}.



End Demo.

Abbreviation demo_init :=
  (initializeDatabase Demo.arn Demo.region Demo.JSON_parse).
Abbreviation demo_ping :=
  (pingDatabase Demo.arn Demo.region Demo.JSON_parse).
Abbreviation demo_run :=
  (run Demo.arn Demo.deps Demo.region Demo.JSON_parse).

(** ** Refinement: the pool as pg-pool keeps it *)

(** pg-pool is a dependency of the service, not part of its source. Three
    facts of its behaviour meet the control flow of [pingDatabase]:
    - [connect()] on a pool on which [end()] has been called rejects;
    - a second [end()] on the same pool rejects;
    - the promise of [end()] settles only once every client acquired from
      the pool has been released; with a client still checked out it stays
      pending.
    [Module Pg] keeps, for every pool, the number of clients checked out
    and whether [end()] has been called, and gives [initializeDatabase]
    and [pingDatabase] again on top of it. An asynchronous function may now
    also stay [Pending]: it never returns, and the writes it made stay. *)

Module Pg.

Record PoolState : Type := mkPoolState {
  checked_out : nat;
  ending : bool
}.

Definition fresh : PoolState := {| checked_out := 0; ending := false |}.

(** The globals of the service and the state of every pool constructed. *)
Record State : Type := mkState {
  globals : Machine;
  pools : gmap nat PoolState
}.

Definition pool_state (s : State) (p : Pool) : PoolState :=
  default fresh (pools s !! pool_id p).

Definition set_globals (m : Machine) (s : State) : State :=
  {| globals := m; pools := pools s |}.

Definition set_pool_state (p : Pool) (st : PoolState) (s : State) : State :=
  {| globals := globals s; pools := <[pool_id p := st]> (pools s) |}.

(** How a call of an asynchronous function ends: it settles, with a value
    or an exception, or its promise stays pending. *)
Inductive Outcome (A : Type) : Type :=
  | Settled (c : Completion A)
  | Pending.
Arguments Settled {A} c.
Arguments Pending {A}.

Definition P (A : Type) : Type :=
  World → State → Outcome A * State * list Event.

#[export] Instance P_ret : MRet P :=
  fun _ a _ s => (Settled (Normal a), s, []).

#[export] Instance P_bind : MBind P := fun _ _ k c w s =>
  match c w s with
  | (Settled (Normal a), s1, t1) =>
      match k a w s1 with
      | (r, s2, t2) => (r, s2, t1 ++ t2)
      end
  | (Settled (Throw e), s1, t1) => (Settled (Throw e), s1, t1)
  | (Pending, s1, t1) => (Pending, s1, t1)
  end.

(** [try { body } catch (e) { handler e }]: a pending [await] in the body
    never reaches the handler. *)
Definition try_catch {A} (body : P A) (handler : JsError → P A) : P A :=
  fun w s =>
    match body w s with
    | (Settled (Normal a), s1, t1) => (Settled (Normal a), s1, t1)
    | (Settled (Throw e), s1, t1) =>
        match handler e w s1 with
        | (r, s2, t2) => (r, s2, t1 ++ t2)
        end
    | (Pending, s1, t1) => (Pending, s1, t1)
    end.

Definition promise_catch {A} (p : P A) (handler : JsError → P A) : P A :=
  try_catch p handler.

(** A computation that only touches the globals and always settles. *)
Definition of_M {A} (c : M A) : P A :=
  fun w s =>
    match c w (globals s) with
    | (r, m, t) => (Settled r, set_globals m s, t)
    end.

Definition outcome {A} (r : Outcome A * State * list Event) : Outcome A :=
  r.1.1.
Definition state_after {A} (r : Outcome A * State * list Event) : State :=
  r.1.2.
Definition calls {A} (r : Outcome A * State * list Event) : list Event :=
  r.2.

(** [new Pool(cfg)]: the new pool has no client and is not ending. *)
Definition new_Pool (cfg : PoolConfig) : P Pool :=
  fun w s =>
    match new_Pool cfg w (globals s) with
    | (Normal pool, m, t) =>
        (Settled (Normal pool),
         set_pool_state pool fresh (set_globals m s), t)
    | (Throw e, m, t) => (Settled (Throw e), set_globals m s, t)
    end.

(** [pool.connect()]: rejected by the pool itself once it is ending;
    otherwise answered by the database, and a client is checked out when
    it resolves. *)
Definition Pool_connect (p : Pool) : P unit :=
  fun w s =>
    let st := pool_state s p in
    if ending st then
      (Settled (Throw (Error "Cannot use a pool after calling end on the pool")),
       s, [EvConnect (pool_id p)])
    else
      match w_connect w with
      | Normal _ =>
          (Settled (Normal tt),
           set_pool_state p
             {| checked_out := S (checked_out st); ending := false |} s,
           [EvConnect (pool_id p)])
      | Throw e => (Settled (Throw e), s, [EvConnect (pool_id p)])
      end.

Definition client_query (p : Pool) (sql : string) : P unit :=
  of_M (client_query p sql).

(** [client.release()]: the client goes back to the pool. *)
Definition client_release (p : Pool) : P unit :=
  fun w s =>
    let st := pool_state s p in
    (Settled (Normal tt),
     set_pool_state p
       {| checked_out := pred (checked_out st); ending := ending st |} s,
     [EvRelease (pool_id p)]).

(** [pool.end()]: rejected when called a second time; otherwise the pool is
    ending from now on, and the promise settles (with the answer of the
    world) only if no client is checked out. *)
Definition Pool_end (p : Pool) : P unit :=
  fun w s =>
    let st := pool_state s p in
    if ending st then
      (Settled (Throw (Error "Called end on pool more than once")),
       s, [EvPoolEnd (pool_id p)])
    else
      let s' := set_pool_state p
                  {| checked_out := checked_out st; ending := true |} s in
      if (checked_out st =? 0)%nat then
        (Settled (w_end w), s', [EvPoolEnd (pool_id p)])
      else
        (Pending, s', [EvPoolEnd (pool_id p)]).

Section Service.

Variable DB_SECRET_ARN : option string.
Variable AWS_REGION : string.
Variable JSON_parse : string → option json.

Definition initializeDatabase : P unit :=
  try_catch
    (cs ← of_M (fetchDatabaseCredentials DB_SECRET_ARN AWS_REGION JSON_parse);
     of_M (write (set_dbConnectionString cs));;
     pool ← new_Pool (pool_options cs);
     of_M (write (set_dbPool (Some pool)));;
     Pool_connect pool;;
     client_release pool;;
     of_M (write (set_isHealthy true)))
    (fun _ => of_M (write (set_isHealthy false))).

Definition pingDatabase : P unit :=
  pool ← of_M (read dbPool);
  match pool with
  | None => initializeDatabase
  | Some pool =>
      try_catch
        (Pool_connect pool;;
         client_query pool "SELECT 1";;
         client_release pool;;
         of_M (write (set_isHealthy true)))
        (fun _ =>
           of_M (write (set_isHealthy false));;
           pool ← of_M (read dbPool);
           match pool with
           | Some pool =>
               promise_catch (Pool_end pool) (fun _ => mret tt);;
               of_M (write (set_dbPool None))
           | None => mret tt
           end)
  end.

(** One firing of the database timer: the callback is started and not
    awaited ([void pingDatabase()]), so the state it leaves is the state
    the next firing finds, whether it returned or not. *)
Definition cycle (s : State) (w : World) : State :=
  state_after (pingDatabase w s).

Definition cycles (s : State) (ws : list World) : State :=
  fold_left cycle ws s.

(** The state [main] reaches when it starts the timers. *)
Definition start (w0 : World) : State :=
  state_after (initializeDatabase w0 {| globals := initial; pools := ∅ |}).

End Service.

(** The pool a state holds is usable: no [end()] called on it, no client
    checked out. *)
Definition idle (s : State) (p : Pool) : Prop :=
  ending (pool_state s p) = false ∧ checked_out (pool_state s p) = 0.

End Pg.

(** ** Lemmas on values and histories *)

Ltac run_M :=
  unfold mbind, M_bind, mret, M_ret, promise_catch, try_catch, emit, read,
    write, await, lift, throw, result, after, events in *;
  simpl in *.

Lemma select_connectionString_object (fields : gmap string json) :
  select_connectionString (JObj fields) =
  Normal (match first_truthy [fields !! "connectionString"; fields !! "url";
                              fields !! "dbUrl"] with
          | Some v => Some v
          | None => fields !! "dbUrl"
          end).
Proof.
  unfold select_connectionString, or_else, Get; simpl.
  destruct (fields !! "connectionString") as [a|],
           (fields !! "url") as [b|],
           (fields !! "dbUrl") as [c|]; simpl;
    repeat match goal with
           | |- context [ToBoolean ?x] => destruct (ToBoolean x) eqn:?; simpl
           end; first [reflexivity | congruence].
Qed.

Lemma first_truthy_truthy (candidates : list jsval) (v : json) :
  first_truthy candidates = Some v → ToBoolean v = true.
Proof.
  induction candidates as [|[c|] rest IH]; simpl; intros H.
  - discriminate.
  - destruct (ToBoolean c) eqn:Hc; [congruence | auto].
  - auto.
Qed.

Lemma first_truthy_none_last (a b c : jsval) :
  first_truthy [a; b; c] = None → truthy c = false.
Proof.
  simpl. destruct a as [a|], b as [b|], c as [c|]; simpl;
    repeat match goal with
           | |- context [if ToBoolean ?x then _ else _] =>
               destruct (ToBoolean x) eqn:?
           end; congruence.
Qed.

Lemma exclusive_app (before : list nat) (t1 t2 : list Event) :
  exclusive before (t1 ++ t2) ↔
  exclusive before t1 ∧ exclusive (fold_left alive_step t1 before) t2.
Proof.
  revert before. induction t1 as [|e t1 IH]; intros before; simpl.
  - tauto.
  - rewrite IH. tauto.
Qed.

Lemma alive_app (t1 t2 : list Event) :
  alive (t1 ++ t2) = fold_left alive_step t2 (alive t1).
Proof. unfold alive. apply fold_left_app. Qed.

Lemma fetches_neutral (before : list nat) (t : list Event) :
  Forall is_fetch t →
  exclusive before t ∧ fold_left alive_step t before = before.
Proof.
  induction 1 as [|e t He _ IH]; simpl; [tauto|].
  destruct e; try destruct He. simpl. tauto.
Qed.

Lemma filter_own (id : nat) : filter (λ x, x ≠ id) [id] = [].
Proof.
  rewrite filter_cons, decide_False by (intros H; apply H; reflexivity).
  reflexivity.
Qed.




(** A pool constructed in a history is either still alive at its end or
    had [end()] called on it afterwards. *)
Lemma constructed_alive_or_ended (p : list Event) (id : nat) (cfg : PoolConfig) :
  In (EvPoolNew id cfg) p →
  In id (alive p) ∨
  ∃ p1 p2, p = p1 ++ EvPoolNew id cfg :: p2 ∧ In (EvPoolEnd id) p2.
Proof.
  induction p as [|e p IH] using rev_ind; intros Hin; [destruct Hin|].
  rewrite alive_app. simpl.
  apply in_app_or in Hin as [Hin|[->|[]]].
  - destruct (IH Hin) as [Halive|(p1 & p2 & -> & Hend)].
    + destruct e as [| id0 cfg0 | | | | id0 |]; simpl;
        try (left; exact Halive).
      * left. right. exact Halive.
      * destruct (decide (id = id0)) as [<-|Hne].
        -- right. apply in_split in Hin as (p1 & p2 & ->).
           exists p1, (p2 ++ [EvPoolEnd id]). split.
           ++ rewrite <- app_assoc. reflexivity.
           ++ apply in_or_app. right. left. reflexivity.
        -- left. apply list_elem_of_In, list_elem_of_filter.
           split; [exact Hne | apply list_elem_of_In, Halive].
    + right. exists p1, (p2 ++ [e]). split.
      * rewrite <- app_assoc. reflexivity.
      * apply in_or_app. left. exact Hend.
  - left. simpl. left. reflexivity.
Qed.

Lemma append_length (a s : string) :
  String.length (a +:+ s) = String.length a + String.length s.
Proof.
  induction a as [|c a IH]; [reflexivity|].
  change (S (String.length (a +:+ s)) = S (String.length a + String.length s)).
  rewrite IH. reflexivity.
Qed.

Lemma append_cancel_r (s a b : string) : a +:+ s = b +:+ s → a = b.
Proof.
  revert b. induction a as [|c a IH]; intros [|d b] H.
  - reflexivity.
  - change (s = String d (b +:+ s)) in H.
    apply (f_equal String.length) in H. simpl in H.
    rewrite append_length in H. lia.
  - change (String c (a +:+ s) = s) in H.
    apply (f_equal String.length) in H. simpl in H.
    rewrite append_length in H. lia.
  - change (String c (a +:+ s) = String d (b +:+ s)) in H.
    injection H as -> H. f_equal. apply IH, H.
Qed.

Lemma Object_fromEntries_id (map : gmap string bool) :
  Object_fromEntries map = map.
Proof. apply list_to_map_to_list. Qed.

Lemma pingDependency_cases (url : string) (w : World) (m : Machine) :
  pingDependency url w m =
  (Normal (liveness (w_fetch w (fetches_issued m) (probe_request url))),
   set_fetches_issued (S (fetches_issued m)) m,
   [EvFetch (probe_request url)]).
Proof.
  unfold pingDependency, fetch. run_M.
  destruct (w_fetch w (fetches_issued m) (probe_request url)); reflexivity.
Qed.

Lemma probe_and_record_cases (dep : string) (w : World) (m : Machine) :
  probe_and_record dep w m =
  let healthy := liveness (w_fetch w (fetches_issued m) (probe_request dep)) in
  (Normal (dep, healthy),
   dependencyHealth_set dep healthy
     (set_fetches_issued (S (fetches_issued m)) m),
   [EvFetch (probe_request dep)]).
Proof.
  unfold probe_and_record.
  unfold mbind at 1. unfold M_bind at 1. rewrite pingDependency_cases.
  reflexivity.
Qed.

(** ** Properties *)

Section Properties.

Set Default Proof Using "Type".

Variable SERVICE_NAME : string.
Variable DB_SECRET_ARN : option string.
Variable DEPENDENCIES : list string.
Variable AWS_REGION : string.
Variable JSON_parse : string → option json.

Abbreviation fetchCreds := (fetchDatabaseCredentials DB_SECRET_ARN AWS_REGION JSON_parse).
Abbreviation init := (initializeDatabase DB_SECRET_ARN AWS_REGION JSON_parse).
Abbreviation ping := (pingDatabase DB_SECRET_ARN AWS_REGION JSON_parse).
Abbreviation creds := (credentials DB_SECRET_ARN AWS_REGION JSON_parse).
Abbreviation snapshot := (health SERVICE_NAME).
Abbreviation boot := (main DB_SECRET_ARN DEPENDENCIES AWS_REGION JSON_parse).
Abbreviation step := (tick DB_SECRET_ARN DEPENDENCIES AWS_REGION JSON_parse).
Abbreviation runs := (run DB_SECRET_ARN DEPENDENCIES AWS_REGION JSON_parse).

(** *** The credential fetch *)

(** The fetch neither reads nor writes the machine. *)
Lemma fetch_frame (w : World) (m : Machine) :
  fetchCreds w m =
  (result (fetchCreds w initial), m, events (fetchCreds w initial)).
Proof.
  unfold fetchDatabaseCredentials, SecretsManager_send. run_M.
  repeat case_match; simplify_eq; reflexivity.
Qed.

Lemma fetch_events (w : World) :
  events (fetchCreds w initial) = [] ∨
  events (fetchCreds w initial) =
    [EvGetSecretValue AWS_REGION (default "" DB_SECRET_ARN)].
Proof.
  unfold fetchDatabaseCredentials, SecretsManager_send. run_M.
  repeat case_match; simplify_eq; auto.
Qed.

Lemma fetch_events_success (w : World) (cs : jsval) :
  result (fetchCreds w initial) = Normal cs →
  events (fetchCreds w initial) =
    [EvGetSecretValue AWS_REGION (default "" DB_SECRET_ARN)].
Proof.
  unfold fetchDatabaseCredentials, SecretsManager_send. run_M.
  repeat case_match; simplify_eq; auto; discriminate.
Qed.

(** *** [initializeDatabase] *)

(** What the call does, by cases on the collaborators' answers. *)
Lemma init_cases (w : World) (m : Machine) :
  init w m =
  match creds w with
  | Throw _ =>
      (Normal tt, set_isHealthy false m, events (fetchCreds w initial))
  | Normal cs =>
      let m1 := set_dbConnectionString cs m in
      match w_new_pool w with
      | Throw _ =>
          (Normal tt, set_isHealthy false m1,
           events (fetchCreds w initial))
      | Normal _ =>
          let pool := mkPool (pools_created m) (pool_options cs) in
          let m2 :=
            set_dbPool (Some pool)
              (set_pools_created (S (pools_created m)) m1) in
          match w_connect w with
          | Throw _ =>
              (Normal tt, set_isHealthy false m2,
               events (fetchCreds w initial) ++
               [EvPoolNew (pools_created m) (pool_options cs);
                EvConnect (pools_created m)])
          | Normal _ =>
              (Normal tt, set_isHealthy true m2,
               events (fetchCreds w initial) ++
               [EvPoolNew (pools_created m) (pool_options cs);
                EvConnect (pools_created m);
                EvRelease (pools_created m)])
          end
      end
  end.
Proof.
  unfold initializeDatabase, credentials.
  unfold try_catch at 1. unfold mbind at 1. unfold M_bind at 1.
  rewrite (fetch_frame w m).
  destruct (result (fetchCreds w initial)) as [cs|e] eqn:Hcs.
  - unfold new_Pool, Pool_connect, client_release.
    unfold mbind, M_bind, mret, M_ret, try_catch, emit, write, await.
    generalize (events (fetchCreds w initial)); intros t.
    destruct (w_new_pool w), (w_connect w); simpl;
      rewrite ?app_nil_r; reflexivity.
  - unfold write.
    generalize (events (fetchCreds w initial)); intros t.
    simpl. rewrite app_nil_r. reflexivity.
Qed.

(** Every failure is reported through [isHealthy] only. When the fetch or
    the pool constructor fails, [dbPool] is left as it was; when the first
    [connect()] fails, the pool just constructed stays in [dbPool]. *)
Lemma init_failure_outcomes (w : World) (m : Machine) :
  isHealthy (after (init w m)) = false →
  result (init w m) = Normal tt ∧
  (dbPool (after (init w m)) = dbPool m ∨
   ∃ cs e,
     creds w = Normal cs ∧ w_connect w = Throw e ∧
     dbPool (after (init w m)) =
       Some (mkPool (pools_created m) (pool_options cs))).
Proof.
  rewrite init_cases.
  destruct (creds w) as [cs|e] eqn:Hcs; [|auto].
  destruct (w_new_pool w); [|auto].
  destruct (w_connect w) as [|e]; [discriminate|].
  intros _. split; [reflexivity|]. right. exists cs, e. auto.
Qed.

Lemma init_never_throws (w : World) (m : Machine) :
  result (init w m) = Normal tt.
Proof.
  rewrite init_cases.
  destruct (creds w), (w_new_pool w), (w_connect w); reflexivity.
Qed.

(** *** [pingDatabase] *)

Lemma ping_cases (w : World) (m : Machine) :
  ping w m =
  match dbPool m with
  | None => init w m
  | Some pool =>
      let id := pool_id pool in
      match w_connect w with
      | Throw _ =>
          (Normal tt, set_dbPool None (set_isHealthy false m),
           [EvConnect id; EvPoolEnd id])
      | Normal _ =>
          match w_query w with
          | Throw _ =>
              (Normal tt, set_dbPool None (set_isHealthy false m),
               [EvConnect id; EvQuery id "SELECT 1"; EvPoolEnd id])
          | Normal _ =>
              (Normal tt, set_isHealthy true m,
               [EvConnect id; EvQuery id "SELECT 1"; EvRelease id])
          end
      end
  end.
Proof.
  unfold pingDatabase.
  unfold mbind at 1. unfold M_bind at 1. unfold read at 1.
  destruct (dbPool m) as [pool|] eqn:Hpool.
  - unfold Pool_connect, client_query, client_release, Pool_end.
    unfold mbind, M_bind, mret, M_ret, promise_catch, try_catch, emit, read,
      write, await.
    destruct (w_connect w), (w_query w); simpl;
      rewrite ?Hpool; simpl; try destruct (w_end w); reflexivity.
  - destruct (init w m) as [[r m'] t]. rewrite app_nil_l. reflexivity.
Qed.

Lemma ping_never_throws (w : World) (m : Machine) :
  result (ping w m) = Normal tt.
Proof.
  rewrite ping_cases. destruct (dbPool m).
  - destruct (w_connect w), (w_query w); reflexivity.
  - apply init_never_throws.
Qed.

(** *** C10: which member of the secret becomes the connection string *)

(** C10. For every parsed secret object, [fetchDatabaseCredentials] returns
    the first truthy value among its members [connectionString], [url] and
    [dbUrl], in that order (a member that is present but falsy is passed
    over), and when none is truthy it throws
    [Error "No connection string found in secret"] rather than returning an
    empty value. *)
Theorem fetch_selects_first_truthy
    (fields : gmap string json) (w : World) (m : Machine) (text : string) :
  truthy_string DB_SECRET_ARN = true →
  w_send w = Normal (Some text) →
  truthy_string (Some text) = true →
  JSON_parse text = Some (JObj fields) →
  result (fetchCreds w m) =
  match first_truthy [fields !! "connectionString"; fields !! "url";
                      fields !! "dbUrl"] with
  | Some v => Normal (Some v)
  | None => Throw (Error "No connection string found in secret")
  end.
Proof.
  intros Harn Hsend Htext Hparse.
  pose proof (select_connectionString_object fields) as Hsel.
  remember (first_truthy [fields !! "connectionString"; fields !! "url";
                          fields !! "dbUrl"]) as chosen eqn:Hchosen.
  symmetry in Hchosen.
  unfold fetchDatabaseCredentials, SecretsManager_send.
  rewrite Harn. run_M. rewrite Hsend. unfold truthy_string.
  rewrite Htext. simpl. rewrite Hparse, Hsel.
  destruct chosen as [v|].
  - apply (first_truthy_truthy [fields !! "connectionString";
                                fields !! "url"; fields !! "dbUrl"]) in Hchosen.
    simpl. rewrite Hchosen. reflexivity.
  - apply (first_truthy_none_last (fields !! "connectionString")
                                  (fields !! "url")) in Hchosen.
    rewrite Hchosen. reflexivity.
Qed.

(** *** C4: the successful path of [initializeDatabase] *)

(** C4 (as amended). When no pool is installed and a call of
    [initializeDatabase] ends with [isHealthy = true], the call has fetched
    the connection string, constructed one pool bounded to 5 connections
    with that connection string, and probed it once by acquiring a
    connection and releasing it; no query is issued, and the pool is the
    one installed in [dbPool]. *)
Theorem initializeDatabase_success_path (w : World) (m : Machine) :
  dbPool m = None →
  isHealthy (after (init w m)) = true →
  ∃ cs,
    creds w = Normal cs ∧
    let pid := pools_created m in
    events (init w m) =
      [EvGetSecretValue AWS_REGION (default "" DB_SECRET_ARN);
       EvPoolNew pid (pool_options cs);
       EvConnect pid;
       EvRelease pid] ∧
    max (pool_options cs) = 5%Z ∧
    connectionString (pool_options cs) = cs ∧
    dbPool (after (init w m)) = Some (mkPool pid (pool_options cs)) ∧
    ¬ acquire_then_query (events (init w m)).
Proof.
  intros _ Hhealthy. rewrite init_cases in *.
  destruct (creds w) as [cs|e] eqn:Hcs; [|discriminate].
  destruct (w_new_pool w); [|discriminate].
  destruct (w_connect w); [|discriminate].
  exists cs. split; [reflexivity|].
  unfold credentials in Hcs. rewrite (fetch_events_success w cs Hcs).
  simpl. repeat split.
  intros (before & id & sql & rest & Heq).
  destruct before as [|? [|? [|? [|? [|? ?]]]]]; simpl in Heq; discriminate.
Qed.

(** *** C7: one dependency probe *)

(** C7. For every URL, [pingDependency] issues exactly one request, a GET
    to [<url>/health] with a 5000 ms timeout, and returns normally with
    [true] exactly when a response arrived whose status is in 200..299;
    a transport error, a timeout and any other status give [false]. *)
Theorem pingDependency_liveness (url : string) (w : World) (m : Machine) :
  events (pingDependency url w m) =
    [EvFetch {| req_url := url +:+ "/health";
                req_method := "GET";
                req_timeout := 5000 |}] ∧
  ∃ healthy,
    result (pingDependency url w m) = Normal healthy ∧
    (healthy = true ↔
     ∃ status,
       w_fetch w (fetches_issued m) (probe_request url) = Response status ∧
       (200 ≤ status ≤ 299)%Z) ∧
    (w_fetch w (fetches_issued m) (probe_request url) = NetworkError →
     healthy = false) ∧
    (w_fetch w (fetches_issued m) (probe_request url) = TimedOut →
     healthy = false).
Proof.
  rewrite pingDependency_cases. split; [reflexivity|].
  eexists. split; [reflexivity|].
  destruct (w_fetch w (fetches_issued m) (probe_request url)) as [status| |];
    simpl; repeat split; try congruence.
  - intros Hok. exists status. split; [reflexivity|].
    unfold ok in Hok. apply andb_true_iff in Hok as [H1 H2]. lia.
  - intros (status' & Heq & Hrange). injection Heq as ->.
    unfold ok. apply andb_true_iff. split; lia.
  - intros (status' & Heq & _). discriminate.
  - intros (status' & Heq & _). discriminate.
Qed.

(** *** C8: one round of dependency probes *)

Lemma settle_in_order_frame (deps : list string) (order : list nat)
    (w : World) (m : Machine) :
  let r := settle_in_order (probe_and_record <$> deps) order w m in
  result r = Normal tt ∧ same_store (after r) m ∧ Forall is_fetch (events r).
Proof.
  revert m. induction order as [|i rest IH]; intros m; simpl.
  - repeat split. constructor.
  - rewrite list_lookup_fmap.
    destruct (deps !! i) as [dep|]; simpl; [|apply IH].
    unfold mbind, M_bind, settle. rewrite probe_and_record_cases. simpl.
    specialize (IH (dependencyHealth_set dep
      (liveness (w_fetch w (fetches_issued m) (probe_request dep)))
      (set_fetches_issued (S (fetches_issued m)) m))).
    destruct (settle_in_order _ rest w _) as [[r m'] t].
    unfold result, after, events in *. simpl in *.
    destruct IH as (-> & Hsame & Hev).
    repeat split; try apply Hsame. constructor; [exact I | exact Hev].
Qed.

Lemma pingDependencies_frame (w : World) (m : Machine) :
  let r := pingDependencies DEPENDENCIES w m in
  result r = Normal tt ∧ same_store (after r) m ∧ Forall is_fetch (events r).
Proof.
  unfold pingDependencies, Promise_allSettled.
  destruct (length DEPENDENCIES =? 0)%nat.
  - simpl. repeat split. constructor.
  - apply settle_in_order_frame.
Qed.

Lemma settle_in_order_step (deps : list string) (i : nat) (rest : list nat)
    (w : World) (m : Machine) (dep : string) :
  deps !! i = Some dep →
  after (settle_in_order (probe_and_record <$> deps) (i :: rest) w m) =
  after (settle_in_order (probe_and_record <$> deps) rest w
           (dependencyHealth_set dep
              (liveness (w_fetch w (fetches_issued m) (probe_request dep)))
              (set_fetches_issued (S (fetches_issued m)) m))).
Proof.
  intros Hdep. simpl. rewrite list_lookup_fmap, Hdep. simpl.
  unfold mbind, M_bind, settle. rewrite probe_and_record_cases. simpl.
  destruct (settle_in_order _ rest w _) as [[r m'] t]. reflexivity.
Qed.

Lemma settle_in_order_skip (deps : list string) (i : nat) (rest : list nat)
    (w : World) (m : Machine) :
  deps !! i = None →
  settle_in_order (probe_and_record <$> deps) (i :: rest) w m =
  settle_in_order (probe_and_record <$> deps) rest w m.
Proof.
  intros Hdep. simpl. rewrite list_lookup_fmap, Hdep. reflexivity.
Qed.

(** A key no settled probe belongs to keeps its entry (or its absence). *)
Lemma settle_in_order_unprobed (deps : list string) (order : list nat)
    (w : World) (m : Machine) (k : string) :
  (∀ i, In i order → deps !! i ≠ Some k) →
  dependencyHealth
    (after (settle_in_order (probe_and_record <$> deps) order w m)) !! k =
  dependencyHealth m !! k.
Proof.
  revert m. induction order as [|i rest IH]; intros m Hk; [reflexivity|].
  destruct (deps !! i) as [dep|] eqn:Hdep.
  - rewrite (settle_in_order_step _ _ _ _ _ _ Hdep), IH.
    + simpl. apply lookup_insert_ne. intros ->.
      apply (Hk i); [left; reflexivity | exact Hdep].
    + intros j Hj. apply Hk. right. exact Hj.
  - rewrite (settle_in_order_skip _ _ _ _ _ Hdep). apply IH.
    intros j Hj. apply Hk. right. exact Hj.
Qed.

(** A key whose probes all fail ends up recorded as [false]. *)
Lemma settle_in_order_failed (deps : list string) (order : list nat)
    (w : World) (m : Machine) (u : string) :
  (∀ n, liveness (w_fetch w n (probe_request u)) = false) →
  dependencyHealth m !! u = Some false ∨
    (∃ i, In i order ∧ deps !! i = Some u) →
  dependencyHealth
    (after (settle_in_order (probe_and_record <$> deps) order w m)) !! u =
  Some false.
Proof.
  intros Hfail. revert m.
  induction order as [|i rest IH]; intros m Hu.
  - destruct Hu as [Hu|(i & [] & _)]. exact Hu.
  - destruct (deps !! i) as [dep|] eqn:Hdep.
    + rewrite (settle_in_order_step _ _ _ _ _ _ Hdep). apply IH. simpl.
      destruct (decide (dep = u)) as [->|Hne].
      * left. rewrite Hfail. apply lookup_insert_eq.
      * rewrite lookup_insert_ne by exact Hne.
        destruct Hu as [Hu|(j & [<-|Hj] & Hdj)]; [left; exact Hu | |].
        -- congruence.
        -- right. exists j. auto.
    + rewrite (settle_in_order_skip _ _ _ _ _ Hdep). apply IH.
      destruct Hu as [Hu|(j & [<-|Hj] & Hdj)]; [left; exact Hu | |].
      * congruence.
      * right. exists j. auto.
Qed.

(** The entry of a key does not depend on what the probes of another
    dependency are answered. *)
Lemma settle_in_order_independent (deps : list string) (order : list nat)
    (w w' : World) (m m' : Machine) (u k : string) :
  k ≠ u →
  (∀ n d, d ≠ u →
     w_fetch w' n (probe_request d) = w_fetch w n (probe_request d)) →
  fetches_issued m = fetches_issued m' →
  dependencyHealth m !! k = dependencyHealth m' !! k →
  dependencyHealth
    (after (settle_in_order (probe_and_record <$> deps) order w m)) !! k =
  dependencyHealth
    (after (settle_in_order (probe_and_record <$> deps) order w' m')) !! k.
Proof.
  intros Hk Hagree. revert m m'.
  induction order as [|i rest IH]; intros m m' Hn Hm; [exact Hm|].
  destruct (deps !! i) as [dep|] eqn:Hdep.
  - rewrite !(settle_in_order_step _ _ _ _ _ _ Hdep). apply IH; simpl.
    + congruence.
    + destruct (decide (dep = u)) as [->|Hne].
      * rewrite !lookup_insert_ne by congruence. exact Hm.
      * rewrite Hn, (Hagree _ _ Hne).
        destruct (decide (dep = k)) as [->|Hdk].
        -- rewrite !lookup_insert_eq. reflexivity.
        -- rewrite !lookup_insert_ne by exact Hdk. exact Hm.
  - rewrite !(settle_in_order_skip _ _ _ _ _ Hdep). apply IH; assumption.
Qed.

(** C8. In every round of [pingDependencies], a dependency URL all of
    whose probes fail is recorded as [false] under its own key, and that is
    the whole effect of the failure: the entry of every other key is the
    same as in a round where this URL's probes are answered differently,
    keys outside [DEPENDENCIES] keep their entries, and [isHealthy] (hence
    the status code served) is unchanged. *)
Theorem failed_probe_is_isolated (u : string) (w w' : World) (m : Machine) :
  (∀ n, liveness (w_fetch w n (probe_request u)) = false) →
  (∃ i, In i (w_order w) ∧ DEPENDENCIES !! i = Some u) →
  w_order w' = w_order w →
  (∀ n d, d ≠ u →
     w_fetch w' n (probe_request d) = w_fetch w n (probe_request d)) →
  let r := pingDependencies DEPENDENCIES w m in
  let r' := pingDependencies DEPENDENCIES w' m in
  dependencyHealth (after r) !! u = Some false ∧
  (∀ k, k ≠ u →
     dependencyHealth (after r) !! k = dependencyHealth (after r') !! k) ∧
  (∀ k, k ∉ DEPENDENCIES →
     dependencyHealth (after r) !! k = dependencyHealth m !! k) ∧
  isHealthy (after r) = isHealthy m ∧
  statusCode (after r) = statusCode m.
Proof.
  intros Hfail Hprobed Horder Hagree r r'.
  assert (Hframe : isHealthy (after r) = isHealthy m).
  { apply (pingDependencies_frame w m). }
  repeat split.
  - subst r. unfold pingDependencies, Promise_allSettled.
    destruct (length DEPENDENCIES =? 0)%nat eqn:Hlen.
    + apply Nat.eqb_eq in Hlen. destruct Hprobed as (i & _ & Hi).
      apply lookup_lt_Some in Hi. lia.
    + apply settle_in_order_failed; auto.
  - intros k Hk. subst r r'. unfold pingDependencies, Promise_allSettled.
    destruct (length DEPENDENCIES =? 0)%nat; [reflexivity|].
    rewrite Horder. apply (settle_in_order_independent _ _ w w' m m u k); auto.
  - intros k Hk. subst r. unfold pingDependencies, Promise_allSettled.
    destruct (length DEPENDENCIES =? 0)%nat; [reflexivity|].
    apply settle_in_order_unprobed. intros i _ Hi.
    apply Hk. apply list_elem_of_lookup. exists i. exact Hi.
  - exact Hframe.
  - unfold statusCode. rewrite Hframe. reflexivity.
Qed.

(** *** C3: the document served at [/health] *)

Lemma snapshot_dependencies (m : Machine) (now : string) :
  member (snapshot m now).2 "dependencies" =
  Some (JObj (JBool <$> dependencyHealth m)).
Proof.
  unfold health, to_json, healthStatus, member. simpl.
  rewrite Object_fromEntries_id. reflexivity.
Qed.

(** C3. The status code served is 200 exactly when the document's [status]
    is ["healthy"], and 503 otherwise; and for every machine with
    [isHealthy = true] and [dependencyHealth = {A: true, B: false}] the
    document has [status: "healthy"], [database: "connected"] and
    [dependencies: {"A": true, "B": false}]. *)
Theorem health_snapshot (m : Machine) (now : string) :
  ((snapshot m now).1 = 200%Z ↔
   member (snapshot m now).2 "status" = Some (JStr "healthy")) ∧
  (member (snapshot m now).2 "status" ≠ Some (JStr "healthy") →
   (snapshot m now).1 = 503%Z) ∧
  (isHealthy m = true →
   dependencyHealth m = {[ "A" := true; "B" := false ]} →
   member (snapshot m now).2 "status" = Some (JStr "healthy") ∧
   member (snapshot m now).2 "database" = Some (JStr "connected") ∧
   member (snapshot m now).2 "dependencies" =
     Some (JObj {[ "A" := JBool true; "B" := JBool false ]})).
Proof.
  split; [|split].
  - unfold health, statusCode, to_json, healthStatus, member. simpl.
    destruct (isHealthy m); split; intros H;
      first [reflexivity | discriminate H].
  - unfold health, statusCode, to_json, healthStatus, member. simpl.
    destruct (isHealthy m); intros H; [destruct H|]; reflexivity.
  - intros Hhealthy Hdeps. rewrite snapshot_dependencies, Hdeps.
    unfold health, to_json, healthStatus, member. simpl. rewrite Hhealthy.
    split; [reflexivity|]. split; [reflexivity|].
    rewrite fmap_insert, map_fmap_singleton. reflexivity.
Qed.

(** *** Runs *)

Lemma run_snoc (w0 : World) (ticks : list Tick) (t : Tick) :
  runs w0 (ticks ++ [t]) = step (runs w0 ticks) t.
Proof. unfold run. rewrite fold_left_app. reflexivity. Qed.

Lemma run_ind (P : Run → Prop) (w0 : World) :
  P (exec boot w0 (initial, [])) →
  (∀ r t, P r → P (step r t)) →
  ∀ ticks, P (runs w0 ticks).
Proof.
  intros Hboot Hstep ticks.
  induction ticks as [|t ticks IH] using rev_ind; [exact Hboot|].
  rewrite run_snoc. apply Hstep, IH.
Qed.

Lemma main_cases (w : World) (m : Machine) :
  boot w m =
  if (0 <? length DEPENDENCIES)%nat then
    (Normal tt,
     after (pingDependencies DEPENDENCIES w (after (init w m))),
     events (init w m) ++
     events (pingDependencies DEPENDENCIES w (after (init w m))))
  else
    (Normal tt, after (init w m), events (init w m)).
Proof.
  unfold main. unfold mbind at 1. unfold M_bind at 1.
  pose proof (init_never_throws w m) as Hinit.
  destruct (init w m) as [[r1 m1] t1].
  unfold result, after, events in *. simpl in *. subst r1.
  destruct (0 <? length DEPENDENCIES)%nat.
  - pose proof (pingDependencies_frame w m1) as (Hr & _).
    destruct (pingDependencies DEPENDENCIES w m1) as [[r2 m2] t2].
    unfold result in Hr. simpl in *. subst r2. reflexivity.
  - simpl. rewrite app_nil_r. reflexivity.
Qed.

(** *** C6: one handle at a time *)

Lemma fetch_events_neutral (w : World) (before : list nat) (t : list Event) :
  exclusive before (events (fetchCreds w initial) ++ t) ↔ exclusive before t.
Proof.
  destruct (fetch_events w) as [-> | ->]; simpl; [reflexivity|].
  split; [intros [_ H]; exact H | intros H; split; [exact I | exact H]].
Qed.

Lemma fetch_events_alive (w : World) (before : list nat) (t : list Event) :
  fold_left alive_step (events (fetchCreds w initial) ++ t) before =
  fold_left alive_step t before.
Proof.
  destruct (fetch_events w) as [-> | ->]; reflexivity.
Qed.

(** Initialisation starting without a pool constructs at most one. *)
Lemma init_exclusive (w : World) (m : Machine) :
  dbPool m = None →
  exclusive [] (events (init w m)) ∧
  fold_left alive_step (events (init w m)) [] = held (after (init w m)).
Proof.
  intros Hnone. rewrite init_cases.
  destruct (fetch_events w) as [-> | ->];
    destruct (creds w) as [cs|e], (w_new_pool w), (w_connect w);
    unfold events, after, held; simpl; rewrite ?Hnone; simpl; repeat split.
Qed.

Lemma ping_exclusive (w : World) (m : Machine) :
  exclusive (held m) (events (ping w m)) ∧
  fold_left alive_step (events (ping w m)) (held m) = held (after (ping w m)).
Proof.
  rewrite ping_cases. destruct (dbPool m) as [pool|] eqn:Hpool.
  - replace (held m) with [pool_id pool]
      by (unfold held; rewrite Hpool; reflexivity).
    destruct (w_connect w), (w_query w); unfold events, after, held; simpl;
      rewrite ?Hpool, ?filter_own; repeat split.
  - replace (held m) with (@nil nat)
      by (unfold held; rewrite Hpool; reflexivity).
    apply init_exclusive, Hpool.
Qed.

Lemma pingDependencies_exclusive (w : World) (m : Machine) :
  exclusive (held m) (events (pingDependencies DEPENDENCIES w m)) ∧
  fold_left alive_step (events (pingDependencies DEPENDENCIES w m)) (held m) =
    held (after (pingDependencies DEPENDENCIES w m)).
Proof.
  destruct (pingDependencies_frame w m) as (_ & (Hpool & _) & Hev).
  destruct (fetches_neutral (held m) _ Hev) as (Hex & Halive).
  split; [exact Hex|]. rewrite Halive. unfold held. rewrite Hpool. reflexivity.
Qed.

Lemma exec_invariant {A} (c : M A) (w : World) (r : Run) :
  run_invariant r →
  (∀ m, exclusive (held m) (events (c w m)) ∧
        fold_left alive_step (events (c w m)) (held m) = held (after (c w m))) →
  run_invariant (exec c w r).
Proof.
  intros (Hex & Halive) Hc. destruct (Hc r.1) as (Hex' & Halive').
  unfold run_invariant, exec. simpl. rewrite exclusive_app, alive_app, Halive.
  fold (alive r.2). rewrite Halive. auto.
Qed.

Lemma run_maintains_invariant (w0 : World) (ticks : list Tick) :
  run_invariant (runs w0 ticks).
Proof.
  apply run_ind.
  - unfold run_invariant, exec. simpl. rewrite main_cases.
    destruct (init_exclusive w0 initial eq_refl) as (Hex & Halive).
    destruct (0 <? length DEPENDENCIES)%nat; unfold events, after; simpl.
    + destruct (pingDependencies_exclusive w0 (after (init w0 initial)))
        as (Hex' & Halive').
      rewrite exclusive_app, alive_app. unfold alive.
      fold (events (init w0 initial)). rewrite Halive. auto.
    + auto.
  - intros r [w|w] Hr; simpl.
    + apply exec_invariant; [exact Hr | apply ping_exclusive].
    + destruct (0 <? length DEPENDENCIES)%nat; [|exact Hr].
      apply exec_invariant; [exact Hr | apply pingDependencies_exclusive].
Qed.


(** *** C9: no declared dependencies *)

Lemma init_dependencyHealth (w : World) (m : Machine) :
  dependencyHealth (after (init w m)) = dependencyHealth m.
Proof.
  rewrite init_cases.
  destruct (creds w), (w_new_pool w), (w_connect w); reflexivity.
Qed.

Lemma ping_dependencyHealth (w : World) (m : Machine) :
  dependencyHealth (after (ping w m)) = dependencyHealth m.
Proof.
  rewrite ping_cases. destruct (dbPool m).
  - destruct (w_connect w), (w_query w); reflexivity.
  - apply init_dependencyHealth.
Qed.

(** C9. With an empty [DEPENDENCIES], [pingDependencies] returns at once:
    the machine is unchanged and no request is issued; and in every run the
    document served at [/health] has a [dependencies] member, the empty
    object. *)
Theorem empty_dependencies :
  DEPENDENCIES = [] →
  (∀ w m, pingDependencies DEPENDENCIES w m = (Normal tt, m, [])) ∧
  (∀ w0 ticks now,
     member (snapshot (runs w0 ticks).1 now).2 "dependencies" =
     Some (JObj ∅)).
Proof.
  intros Hempty. split.
  - intros w m. unfold pingDependencies. rewrite Hempty. reflexivity.
  - intros w0 ticks now. rewrite snapshot_dependencies.
    assert (Hdeps : dependencyHealth (runs w0 ticks).1 = ∅).
    { apply (run_ind (λ r, dependencyHealth r.1 = ∅)).
      - unfold exec. simpl. rewrite main_cases, Hempty. simpl.
        apply init_dependencyHealth.
      - intros r [w|w] Hr; simpl.
        + rewrite ping_dependencyHealth. exact Hr.
        + rewrite Hempty. simpl. exact Hr. }
    rewrite Hdeps, fmap_empty. reflexivity.
Qed.

End Properties.

(** ** The model at the concrete deployment *)

(** C1. With the secret served and the pool constructed, a failing first
    [connect()] makes [initializeDatabase] return normally with
    [isHealthy = false], but the pool it constructed is still installed in
    [dbPool]: the catch block does not clear it, unlike the catch block of
    [pingDatabase]. *)
Lemma initializeDatabase_failed_probe_keeps_pool :
  result (demo_init Demo.world_db_down initial) = Normal tt ∧
  isHealthy (after (demo_init Demo.world_db_down initial)) = false ∧
  dbPool (after (demo_init Demo.world_db_down initial)) =
    Some (mkPool 0 (pool_options (Some (JStr "postgres://db")))) ∧
  events (demo_init Demo.world_db_down initial) =
    [EvGetSecretValue Demo.region "arn:aws:secretsmanager:demo";
     EvPoolNew 0 (pool_options (Some (JStr "postgres://db")));
     EvConnect 0].
Proof. vm_compute. repeat split. Qed.

Lemma health_snapshot_witness :
  member (health Demo.name Demo.connected "2026-01-01T00:00:00.000Z").2
    "status" = Some (JStr "healthy") ∧
  member (health Demo.name Demo.connected "2026-01-01T00:00:00.000Z").2
    "database" = Some (JStr "connected") ∧
  member (health Demo.name Demo.connected "2026-01-01T00:00:00.000Z").2
    "dependencies" = Some (JObj {[ "A" := JBool true; "B" := JBool false ]}).
Proof.
  apply (health_snapshot Demo.name Demo.connected "2026-01-01T00:00:00.000Z");
    reflexivity.
Defined.

(** C4, as the specification states it, fails: with every collaborator
    answering, the call ends with [isHealthy = true] and its history has no
    acquisition followed by a query. *)
Lemma initializeDatabase_success_without_query :
  ¬ (dbPool initial = None →
     isHealthy (after (demo_init Demo.world_up initial)) = true →
     acquire_then_query (events (demo_init Demo.world_up initial))).
Proof.
  intros Hclaim.
  destruct (Hclaim eq_refl eq_refl) as (before & id & sql & rest & Heq).
  vm_compute in Heq.
  destruct before as [|? [|? [|? [|? [|? ?]]]]]; discriminate Heq.
Qed.

Lemma initializeDatabase_success_path_witness :
  ∃ cs,
    credentials Demo.arn Demo.region Demo.JSON_parse Demo.world_up = Normal cs ∧
    events (demo_init Demo.world_up initial) =
      [EvGetSecretValue Demo.region "arn:aws:secretsmanager:demo";
       EvPoolNew 0 (pool_options cs);
       EvConnect 0;
       EvRelease 0] ∧
    max (pool_options cs) = 5%Z ∧
    connectionString (pool_options cs) = cs ∧
    dbPool (after (demo_init Demo.world_up initial)) =
      Some (mkPool 0 (pool_options cs)) ∧
    ¬ acquire_then_query (events (demo_init Demo.world_up initial)).
Proof.
  apply (initializeDatabase_success_path Demo.arn Demo.region Demo.JSON_parse
           Demo.world_up initial); reflexivity.
Defined.


Lemma failed_probe_is_isolated_witness :
  let r := pingDependencies Demo.deps Demo.world_db_down initial in
  let r' := pingDependencies Demo.deps Demo.world_b_answers initial in
  dependencyHealth (after r) !! "http://b" = Some false ∧
  (∀ k, k ≠ "http://b" →
     dependencyHealth (after r) !! k = dependencyHealth (after r') !! k) ∧
  (∀ k, k ∉ Demo.deps →
     dependencyHealth (after r) !! k = dependencyHealth initial !! k) ∧
  isHealthy (after r) = isHealthy initial ∧
  statusCode (after r) = statusCode initial.
Proof.
  apply (failed_probe_is_isolated Demo.deps "http://b"
           Demo.world_db_down Demo.world_b_answers initial).
  - intros n. simpl. destruct (n =? 0)%nat; reflexivity.
  - exists 1%nat. split; [left; reflexivity | reflexivity].
  - reflexivity.
  - intros n d Hd. simpl.
    destruct (String.eqb_spec (d +:+ "/health") "http://b/health") as [Heq|_];
      [|reflexivity].
    destruct Hd. apply (append_cancel_r "/health"). exact Heq.
Defined.

Lemma empty_dependencies_witness :
  (∀ w m, pingDependencies [] w m = (Normal tt, m, [])) ∧
  (∀ w0 ticks now,
     member
       (health Demo.name
          (run Demo.arn [] Demo.region Demo.JSON_parse w0 ticks).1 now).2
       "dependencies" = Some (JObj ∅)).
Proof.
  apply (empty_dependencies Demo.name Demo.arn [] Demo.region Demo.JSON_parse).
  reflexivity.
Defined.

Lemma fetch_selects_first_truthy_witness :
  result (fetchDatabaseCredentials Demo.arn Demo.region Demo.JSON_parse
            Demo.world_up initial) =
  Normal (Some (JStr "postgres://db")).
Proof.
  apply (fetch_selects_first_truthy Demo.arn Demo.region Demo.JSON_parse
           Demo.secret_object Demo.world_up initial Demo.secret_text);
    reflexivity.
Defined.

(** ** Further properties of the service *)

Section Further.

Set Default Proof Using "Type".

Variable SERVICE_NAME : string.
Variable DB_SECRET_ARN : option string.
Variable DEPENDENCIES : list string.
Variable AWS_REGION : string.
Variable JSON_parse : string → option json.

Abbreviation fetchCreds := (fetchDatabaseCredentials DB_SECRET_ARN AWS_REGION JSON_parse).
Abbreviation init := (initializeDatabase DB_SECRET_ARN AWS_REGION JSON_parse).
Abbreviation ping := (pingDatabase DB_SECRET_ARN AWS_REGION JSON_parse).
Abbreviation creds := (credentials DB_SECRET_ARN AWS_REGION JSON_parse).
Abbreviation snapshot := (health SERVICE_NAME).
Abbreviation boot := (main DB_SECRET_ARN DEPENDENCIES AWS_REGION JSON_parse).
Abbreviation step := (tick DB_SECRET_ARN DEPENDENCIES AWS_REGION JSON_parse).
Abbreviation runs := (run DB_SECRET_ARN DEPENDENCIES AWS_REGION JSON_parse).
Abbreviation pingDeps := (pingDependencies DEPENDENCIES).

(** *** [fetchDatabaseCredentials] *)

(** X2. Whenever the fetch returns, the value it returns is truthy, it has
    sent exactly one [GetSecretValue] request, for the configured secret in
    the configured region, and it has not touched the globals. *)
Theorem fetch_success_shape (w : World) (m : Machine) (cs : jsval) :
  result (fetchCreds w m) = Normal cs →
  truthy cs = true ∧
  (∃ arn, DB_SECRET_ARN = Some arn ∧ arn ≠ "" ∧
          events (fetchCreds w m) = [EvGetSecretValue AWS_REGION arn]) ∧
  after (fetchCreds w m) = m.
Proof.
  unfold fetchDatabaseCredentials, SecretsManager_send. run_M.
  destruct DB_SECRET_ARN as [arn|]; simpl; [|discriminate].
  destruct (String.eqb_spec arn ""); simpl; [discriminate|].
  destruct (w_send w) as [ss|]; simpl; [|discriminate].
  destruct (negb (truthy_string ss)); simpl; [discriminate|].
  destruct (JSON_parse (default "" ss)) as [secret|]; simpl; [|discriminate].
  destruct (select_connectionString secret) as [v|]; simpl; [|discriminate].
  destruct (truthy v) eqn:Hv; simpl; [|discriminate].
  intros [= <-]. split; [exact Hv|]. split; [|reflexivity].
  exists arn. auto.
Qed.

(** X3. A rejection of the Secrets Manager call reaches the caller of the
    fetch unchanged, after the one request. *)
Theorem fetch_rethrows (w : World) (m : Machine) (e : JsError) :
  truthy_string DB_SECRET_ARN = true →
  w_send w = Throw e →
  fetchCreds w m =
  (Throw e, m, [EvGetSecretValue AWS_REGION (default "" DB_SECRET_ARN)]).
Proof.
  intros Harn Hsend. unfold fetchDatabaseCredentials, SecretsManager_send.
  rewrite Harn. run_M. rewrite Hsend. reflexivity.
Qed.

(** X4. A secret that cannot give a connection string makes the fetch
    throw: an absent or empty [SecretString] gives
    [Error "Secret value is empty"]; text that does not parse gives a
    [SyntaxError]; the JSON value [null] gives a [TypeError]; a boolean, a
    number, a string or an array gives
    [Error "No connection string found in secret"]. *)
Theorem fetch_rejects_unusable_secret
    (w : World) (m : Machine) (SecretString : option string) :
  truthy_string DB_SECRET_ARN = true →
  w_send w = Normal SecretString →
  (truthy_string SecretString = false →
   result (fetchCreds w m) = Throw (Error "Secret value is empty")) ∧
  (truthy_string SecretString = true →
   match JSON_parse (default "" SecretString) with
   | None => result (fetchCreds w m) = Throw SyntaxError
   | Some JNull => result (fetchCreds w m) = Throw TypeError
   | Some (JObj _) => True
   | Some _ =>
       result (fetchCreds w m) =
       Throw (Error "No connection string found in secret")
   end).
Proof.
  intros Harn Hsend. unfold fetchDatabaseCredentials, SecretsManager_send.
  rewrite Harn. run_M. rewrite Hsend. simpl.
  split; intros Hss; rewrite Hss; simpl; [reflexivity|].
  destruct (JSON_parse (default "" SecretString)) as [[]|]; reflexivity.
Qed.

(** *** [initializeDatabase] *)

(** X5. [initializeDatabase] returns normally in every world, and it ends
    with [isHealthy = true] exactly when the credential fetch, the pool
    constructor and the first [connect()] all succeed. *)
Theorem initializeDatabase_health_iff (w : World) (m : Machine) :
  result (init w m) = Normal tt ∧
  (isHealthy (after (init w m)) = true ↔
   (∃ cs, creds w = Normal cs) ∧
   w_new_pool w = Normal tt ∧ w_connect w = Normal tt).
Proof.
  rewrite init_cases.
  destruct (creds w) as [cs|e]; simpl.
  - destruct (w_new_pool w) as [[]|]; simpl.
    + destruct (w_connect w) as [[]|]; simpl.
      * split; [reflexivity|]. split; [eauto | reflexivity].
      * split; [reflexivity|]. split; [discriminate|].
        intros (_ & _ & H). discriminate H.
    + split; [reflexivity|]. split; [discriminate|].
      intros (_ & H & _). discriminate H.
  - split; [reflexivity|]. split; [discriminate|].
    intros ((cs & H) & _). discriminate H.
Qed.

(** X6. When the credential fetch fails, [initializeDatabase] does nothing
    but set [isHealthy] to [false]: no pool is constructed, no connection
    is attempted, and every other global keeps its value. *)
Theorem initializeDatabase_failed_fetch
    (w : World) (m : Machine) (e : JsError) :
  creds w = Throw e →
  after (init w m) = set_isHealthy false m ∧
  Forall (λ ev, is_secret_request (Some ev)) (events (init w m)).
Proof.
  intros Hcreds. rewrite init_cases, Hcreds. split; [reflexivity|].
  unfold events at 1. simpl.
  destruct (fetch_events DB_SECRET_ARN AWS_REGION JSON_parse w) as [-> | ->];
    repeat constructor.
Qed.

(** X7. Once the fetch has succeeded, [dbConnectionString] holds the
    fetched value when [initializeDatabase] returns, also when the pool
    constructor or the first [connect()] fails afterwards; a failing
    constructor leaves [dbPool] as it was. *)
Theorem initializeDatabase_records_connection_string
    (w : World) (m : Machine) (cs : jsval) :
  creds w = Normal cs →
  dbConnectionString (after (init w m)) = cs ∧
  (is_Throw (w_new_pool w) → dbPool (after (init w m)) = dbPool m).
Proof.
  intros Hcreds. rewrite init_cases, Hcreds.
  destruct (w_new_pool w), (w_connect w); simpl; split;
    solve [reflexivity | intros []].
Qed.

(** *** [pingDatabase] *)


(** X9. When the acquisition succeeds and the query rejects,
    [pingDatabase] goes from the query straight to [end()]: the acquired
    connection is not released. When the acquisition itself rejects, no
    query is sent. *)
Theorem pingDatabase_failure_history
    (w : World) (m : Machine) (pool : Pool) :
  dbPool m = Some pool →
  (w_connect w = Normal tt → is_Throw (w_query w) →
   events (ping w m) =
     [EvConnect (pool_id pool); EvQuery (pool_id pool) "SELECT 1";
      EvPoolEnd (pool_id pool)]) ∧
  (is_Throw (w_connect w) →
   events (ping w m) = [EvConnect (pool_id pool); EvPoolEnd (pool_id pool)]).
Proof.
  intros Hpool. rewrite ping_cases, Hpool. simpl. split.
  - intros -> Hq. destruct (w_query w); [destruct Hq | reflexivity].
  - intros Hc. destruct (w_connect w); [destruct Hc | reflexivity].
Qed.

(** X10. One cycle takes one branch. With a pool installed every external
    call of [pingDatabase] is an operation on that pool (no secret is
    fetched, no pool is constructed) and [dbConnectionString] is unchanged;
    with no pool installed the cycle is an [initializeDatabase] call and
    sends no query and ends no pool. *)
Theorem pingDatabase_single_dispatch (w : World) (m : Machine) :
  match dbPool m with
  | Some pool =>
      Forall (λ ev, used_pool ev = Some (pool_id pool)) (events (ping w m)) ∧
      dbConnectionString (after (ping w m)) = dbConnectionString m ∧
      pools_created (after (ping w m)) = pools_created m
  | None =>
      ping w m = init w m ∧
      Forall (λ ev, match ev with
                    | EvQuery _ _ | EvPoolEnd _ => False
                    | _ => True
                    end) (events (ping w m))
  end.
Proof.
  rewrite ping_cases. destruct (dbPool m) as [pool|] eqn:Hpool.
  - destruct (w_connect w), (w_query w); simpl; repeat split;
      repeat constructor.
  - split; [reflexivity|]. rewrite init_cases.
    destruct (fetch_events DB_SECRET_ARN AWS_REGION JSON_parse w) as [-> | ->];
      destruct (creds w), (w_new_pool w), (w_connect w); simpl;
      repeat constructor.
Qed.

(** *** Invariants of runs *)

Lemma creds_truthy (w : World) (cs : jsval) :
  creds w = Normal cs → truthy cs = true.
Proof.
  unfold credentials, fetchDatabaseCredentials, SecretsManager_send. run_M.
  destruct (negb (truthy_string DB_SECRET_ARN)); simpl; [discriminate|].
  destruct (w_send w) as [ss|]; simpl; [|discriminate].
  destruct (negb (truthy_string ss)); simpl; [discriminate|].
  destruct (JSON_parse (default "" ss)) as [secret|]; simpl; [|discriminate].
  destruct (select_connectionString secret) as [v|]; simpl; [|discriminate].
  destruct (truthy v) eqn:Hv; simpl; [|discriminate].
  intros [= <-]. exact Hv.
Qed.

Lemma creds_events (w : World) (cs : jsval) :
  creds w = Normal cs →
  events (fetchCreds w initial) =
    [EvGetSecretValue AWS_REGION (default "" DB_SECRET_ARN)].
Proof. apply fetch_events_success. Qed.

Lemma exec_exec {A B} (c1 : M A) (c2 : M B) (w : World) (r : Run) :
  exec c2 w (exec c1 w r) =
  (after (c2 w (after (c1 w r.1))),
   r.2 ++ events (c1 w r.1) ++ events (c2 w (after (c1 w r.1)))).
Proof. unfold exec. simpl. rewrite app_assoc. reflexivity. Qed.

(** Start-up is an initialisation followed, when dependencies are
    declared, by one round of probes. *)
Lemma boot_exec (w : World) (r : Run) :
  exec boot w r =
  if (0 <? length DEPENDENCIES)%nat then exec pingDeps w (exec init w r)
  else exec init w r.
Proof.
  destruct (0 <? length DEPENDENCIES)%nat eqn:Hlen.
  - rewrite exec_exec. unfold exec at 1. rewrite main_cases, Hlen. reflexivity.
  - unfold exec. rewrite main_cases, Hlen. reflexivity.
Qed.

(** Induction on runs by the operation a tick performs. *)
Lemma run_ops_ind (P : Run → Prop) :
  P (initial, []) →
  (∀ r w, P r → P (exec ping w r)) →
  (∀ r w, P r → P (exec pingDeps w r)) →
  ∀ w0 ticks, P (runs w0 ticks).
Proof.
  intros Hinitial Hping Hdeps w0.
  assert (Hinit : P (exec init w0 (initial, []))).
  { specialize (Hping (initial, []) w0 Hinitial).
    unfold exec in *. simpl in *. rewrite ping_cases in Hping. exact Hping. }
  apply run_ind.
  - rewrite boot_exec. destruct (0 <? length DEPENDENCIES)%nat; auto.
  - intros r [w|w] Hr; simpl; [auto|].
    destruct (0 <? length DEPENDENCIES)%nat; auto.
Qed.

Lemma fetch_without_arn (w : World) (m : Machine) :
  truthy_string DB_SECRET_ARN = false →
  fetchCreds w m =
  (Throw (Error "DB_SECRET_ARN environment variable is required"), m, []).
Proof.
  intros Harn. unfold fetchDatabaseCredentials. rewrite Harn. reflexivity.
Qed.

(** X15. Among the external calls of one [initializeDatabase] call, a pool
    construction is preceded by exactly one call, the request for the
    secret, which has succeeded: the pool is built from the connection
    string just fetched, and every later call of that invocation is made
    on the new pool. *)
Theorem pool_built_after_secret_fetch
    (w : World) (m : Machine) (p s : list Event) (id : nat) (cfg : PoolConfig) :
  events (init w m) = p ++ EvPoolNew id cfg :: s →
  p = [EvGetSecretValue AWS_REGION (default "" DB_SECRET_ARN)] ∧
  (∃ cs, creds w = Normal cs ∧ truthy cs = true ∧ cfg = pool_options cs) ∧
  id = pools_created m ∧
  Forall (λ ev, used_pool ev = Some id) s.
Proof.
  rewrite init_cases. destruct (creds w) as [cs|e] eqn:Hcs.
  - pose proof (creds_truthy w cs Hcs) as Htruthy.
    pose proof (creds_events w cs Hcs) as Hfetch.
    assert (Hsplit : ∀ rest,
      [EvGetSecretValue AWS_REGION (default "" DB_SECRET_ARN);
       EvPoolNew (pools_created m) (pool_options cs)] ++ rest =
      p ++ EvPoolNew id cfg :: s →
      Forall (λ ev, used_pool ev = Some (pools_created m)) rest →
      p = [EvGetSecretValue AWS_REGION (default "" DB_SECRET_ARN)] ∧
      (∃ cs', Normal cs = Normal cs' ∧ truthy cs' = true ∧
              cfg = pool_options cs') ∧
      id = pools_created m ∧ Forall (λ ev, used_pool ev = Some id) s).
    { intros rest Heq Hrest.
      destruct p as [|e1 [|e2 p]]; simpl in Heq.
      - discriminate Heq.
      - injection Heq as <- <- <- <-. eauto 10.
      - injection Heq as <- <- Heq. exfalso.
        assert (Hin : In (EvPoolNew id cfg) rest).
        { rewrite Heq. apply in_or_app. right. left. reflexivity. }
        rewrite Forall_forall in Hrest.
        apply list_elem_of_In, Hrest in Hin. discriminate Hin. }
    rewrite Hfetch. destruct (w_new_pool w).
    + destruct (w_connect w); unfold events; simpl; intros Heq.
      * apply (Hsplit [EvConnect (pools_created m);
                       EvRelease (pools_created m)]);
          [exact Heq | repeat constructor].
      * apply (Hsplit [EvConnect (pools_created m)]);
          [exact Heq | repeat constructor].
    + unfold events; simpl. intros Heq.
      destruct p as [|e1 [|e2 p]]; discriminate Heq.
  - unfold events at 1; simpl.
    destruct (fetch_events DB_SECRET_ARN AWS_REGION JSON_parse w) as [-> | ->];
      intros Heq; destruct p as [|e1 [|e2 p]]; discriminate Heq.
Qed.

(** X1. When [DB_SECRET_ARN] is unset or empty, no run of the service ever
    reports healthy, installs a pool, or contacts the Secrets Manager or
    the database: the only external calls are dependency probes. *)
Theorem missing_arn_never_healthy (w0 : World) (ticks : list Tick) :
  truthy_string DB_SECRET_ARN = false →
  isHealthy (runs w0 ticks).1 = false ∧
  dbPool (runs w0 ticks).1 = None ∧
  Forall is_fetch (runs w0 ticks).2.
Proof.
  intros Harn. revert w0 ticks.
  apply (run_ops_ind (λ r, isHealthy r.1 = false ∧ dbPool r.1 = None ∧
                           Forall is_fetch r.2)).
  - repeat split. constructor.
  - intros r w (Hhealthy & Hpool & Hev). unfold exec. simpl.
    rewrite ping_cases, Hpool, init_cases.
    unfold credentials. rewrite !fetch_without_arn by exact Harn.
    unfold result, events, after. simpl. rewrite app_nil_r. auto.
  - intros r w (Hhealthy & Hpool & Hev). unfold exec. simpl.
    destruct (pingDependencies_frame DEPENDENCIES w r.1)
      as (_ & (Hp & Hh & _) & Hfetches).
    rewrite Hp, Hh. repeat split; try assumption.
    apply Forall_app. auto.
Qed.

(** X12. In every run, whenever [isHealthy] is [true] a pool is
    installed: healthy is never reported without a pool. *)
Theorem healthy_implies_pool (w0 : World) (ticks : list Tick) :
  isHealthy (runs w0 ticks).1 = true → is_Some (dbPool (runs w0 ticks).1).
Proof.
  revert w0 ticks.
  apply (run_ops_ind (λ r, isHealthy r.1 = true → is_Some (dbPool r.1))).
  - discriminate.
  - intros r w _. unfold exec. simpl. rewrite ping_cases.
    destruct (dbPool r.1) as [pool|] eqn:Hpool.
    + destruct (w_connect w), (w_query w); simpl;
        rewrite ?Hpool; first [discriminate | eauto].
    + rewrite init_cases.
      destruct (creds w), (w_new_pool w), (w_connect w); simpl;
        first [discriminate | eauto].
  - intros r w Hr. unfold exec. simpl.
    destruct (pingDependencies_frame DEPENDENCIES w r.1)
      as (_ & (Hp & Hh & _) & _).
    rewrite Hp, Hh. exact Hr.
Qed.

(** X13. In every run, an installed pool was built by [new Pool] from the
    value now in [dbConnectionString], which is truthy, with the fixed
    options (at most 5 connections, 30 s idle timeout, 10 s connection
    timeout, certificates not verified). *)
Theorem pool_built_from_connection_string
    (w0 : World) (ticks : list Tick) (pool : Pool) :
  dbPool (runs w0 ticks).1 = Some pool →
  pool_config pool = pool_options (dbConnectionString (runs w0 ticks).1) ∧
  truthy (dbConnectionString (runs w0 ticks).1) = true.
Proof.
  revert pool. revert w0 ticks.
  apply (run_ops_ind (λ r, ∀ pool, dbPool r.1 = Some pool →
           pool_config pool = pool_options (dbConnectionString r.1) ∧
           truthy (dbConnectionString r.1) = true)).
  - discriminate.
  - intros r w Hr pool. unfold exec. simpl. rewrite ping_cases.
    destruct (dbPool r.1) as [pool0|] eqn:Hpool.
    + destruct (w_connect w), (w_query w); simpl;
        rewrite ?Hpool; first [discriminate | intros [= <-]; auto].
    + rewrite init_cases.
      destruct (creds w) as [cs|] eqn:Hcs; simpl;
        [|rewrite Hpool; discriminate].
      apply creds_truthy in Hcs.
      destruct (w_new_pool w), (w_connect w); simpl;
        rewrite ?Hpool; first [discriminate | intros [= <-]; auto].
  - intros r w Hr pool. unfold exec. simpl.
    destruct (pingDependencies_frame DEPENDENCIES w r.1)
      as (_ & (Hp & _ & Hcs & _) & _).
    rewrite Hp, Hcs. apply Hr.
Qed.

(** *** Rounds of dependency probes *)

Lemma settle_in_order_cons (deps : list string) (i : nat) (rest : list nat)
    (w : World) (m : Machine) (dep : string) :
  deps !! i = Some dep →
  let m' := dependencyHealth_set dep
              (liveness (w_fetch w (fetches_issued m) (probe_request dep)))
              (set_fetches_issued (S (fetches_issued m)) m) in
  after (settle_in_order (probe_and_record <$> deps) (i :: rest) w m) =
    after (settle_in_order (probe_and_record <$> deps) rest w m') ∧
  events (settle_in_order (probe_and_record <$> deps) (i :: rest) w m) =
    EvFetch (probe_request dep) ::
    events (settle_in_order (probe_and_record <$> deps) rest w m').
Proof.
  intros Hdep. simpl. rewrite list_lookup_fmap, Hdep. simpl.
  unfold mbind, M_bind, settle. rewrite probe_and_record_cases. simpl.
  destruct (settle_in_order _ rest w _) as [[r m2] t]. split; reflexivity.
Qed.

Lemma settle_in_order_declared (deps : list string) (order : list nat)
    (w : World) (m : Machine) :
  Forall (declared_probe deps)
    (events (settle_in_order (probe_and_record <$> deps) order w m)).
Proof.
  revert m. induction order as [|i rest IH]; intros m; [constructor|].
  destruct (deps !! i) as [dep|] eqn:Hdep.
  - rewrite (proj2 (settle_in_order_cons deps i rest w m dep Hdep)).
    constructor; [|apply IH].
    exists dep. split; [|reflexivity].
    apply list_elem_of_lookup. exists i. exact Hdep.
  - rewrite (settle_in_order_skip _ _ _ _ _ Hdep). apply IH.
Qed.

Lemma settle_in_order_keeps (deps : list string) (order : list nat)
    (w : World) (m : Machine) (k : string) :
  is_Some (dependencyHealth m !! k) ∨
    (∃ i, In i order ∧ deps !! i = Some k) →
  is_Some (dependencyHealth
    (after (settle_in_order (probe_and_record <$> deps) order w m)) !! k).
Proof.
  revert m. induction order as [|i rest IH]; intros m Hk.
  - destruct Hk as [Hk|(i & [] & _)]. exact Hk.
  - destruct (deps !! i) as [dep|] eqn:Hdep.
    + rewrite (settle_in_order_step _ _ _ _ _ _ Hdep). apply IH. simpl.
      destruct (decide (dep = k)) as [->|Hne].
      * left. rewrite lookup_insert_eq. eauto.
      * rewrite lookup_insert_ne by exact Hne.
        destruct Hk as [Hk|(j & [<-|Hj] & Hdj)]; [left; exact Hk | |].
        -- congruence.
        -- right. exists j. auto.
    + rewrite (settle_in_order_skip _ _ _ _ _ Hdep). apply IH.
      destruct Hk as [Hk|(j & [<-|Hj] & Hdj)]; [left; exact Hk | |].
      * congruence.
      * right. exists j. auto.
Qed.

Lemma settle_in_order_stable (deps : list string) (order : list nat)
    (w : World) (m : Machine) (k : string) :
  stable_answers w →
  dependencyHealth m !! k = Some (liveness (w_fetch w 0 (probe_request k))) ∨
    (∃ i, In i order ∧ deps !! i = Some k) →
  dependencyHealth
    (after (settle_in_order (probe_and_record <$> deps) order w m)) !! k =
  Some (liveness (w_fetch w 0 (probe_request k))).
Proof.
  intros Hstable. revert m. induction order as [|i rest IH]; intros m Hk.
  - destruct Hk as [Hk|(i & [] & _)]. exact Hk.
  - destruct (deps !! i) as [dep|] eqn:Hdep.
    + rewrite (settle_in_order_step _ _ _ _ _ _ Hdep). apply IH. simpl.
      destruct (decide (dep = k)) as [->|Hne].
      * left. rewrite lookup_insert_eq.
        rewrite (Hstable (fetches_issued m) 0). reflexivity.
      * rewrite lookup_insert_ne by exact Hne.
        destruct Hk as [Hk|(j & [<-|Hj] & Hdj)]; [left; exact Hk | |].
        -- congruence.
        -- right. exists j. auto.
    + rewrite (settle_in_order_skip _ _ _ _ _ Hdep). apply IH.
      destruct Hk as [Hk|(j & [<-|Hj] & Hdj)]; [left; exact Hk | |].
      * congruence.
      * right. exists j. auto.
Qed.

Lemma pingDependencies_undeclared (w : World) (m : Machine) (k : string) :
  k ∉ DEPENDENCIES →
  dependencyHealth (after (pingDeps w m)) !! k = dependencyHealth m !! k.
Proof.
  intros Hk. unfold pingDependencies, Promise_allSettled.
  destruct (length DEPENDENCIES =? 0)%nat; [reflexivity|].
  apply settle_in_order_unprobed. intros i _ Hi.
  apply Hk, list_elem_of_lookup. exists i. exact Hi.
Qed.

Lemma pingDependencies_declared (w : World) (m : Machine) :
  Forall (declared_probe DEPENDENCIES) (events (pingDeps w m)).
Proof.
  unfold pingDependencies, Promise_allSettled.
  destruct (length DEPENDENCIES =? 0)%nat; [constructor|].
  apply settle_in_order_declared.
Qed.

Lemma settles_all_probed (w : World) (dep : string) :
  settles_all DEPENDENCIES w → dep ∈ DEPENDENCIES →
  (length DEPENDENCIES =? 0)%nat = false ∧
  ∃ i, In i (w_order w) ∧ DEPENDENCIES !! i = Some dep.
Proof.
  intros Hall Hdep. apply list_elem_of_lookup in Hdep as (i & Hi).
  pose proof (lookup_lt_Some _ _ _ Hi) as Hlt. split.
  - apply Nat.eqb_neq. lia.
  - exists i. split; [apply Hall, Hlt | exact Hi].
Qed.

(** X16. In every run, every request sent with [fetch] is the probe of a
    declared dependency (GET [<dep>/health], 5000 ms), and every key of
    [dependencyHealth] is a declared dependency: nothing undeclared is
    ever probed or recorded. *)
Theorem only_declared_dependencies (w0 : World) (ticks : list Tick) :
  Forall (declared_probe DEPENDENCIES) (runs w0 ticks).2 ∧
  ∀ k, is_Some (dependencyHealth (runs w0 ticks).1 !! k) → k ∈ DEPENDENCIES.
Proof.
  revert w0 ticks.
  apply (run_ops_ind (λ r, Forall (declared_probe DEPENDENCIES) r.2 ∧
           ∀ k, is_Some (dependencyHealth r.1 !! k) → k ∈ DEPENDENCIES)).
  - split; [constructor|]. intros k [v Hv]. simpl in Hv.
    rewrite lookup_empty in Hv. discriminate.
  - intros r w (Hev & Hkeys). unfold exec. simpl. split.
    + apply Forall_app. split; [exact Hev|].
      rewrite ping_cases. destruct (dbPool r.1).
      * destruct (w_connect w), (w_query w); repeat constructor.
      * rewrite init_cases.
        destruct (fetch_events DB_SECRET_ARN AWS_REGION JSON_parse w)
          as [-> | ->];
          destruct (creds w), (w_new_pool w), (w_connect w);
          repeat constructor.
    + rewrite ping_dependencyHealth. exact Hkeys.
  - intros r w (Hev & Hkeys). unfold exec. simpl. split.
    + apply Forall_app. split; [exact Hev | apply pingDependencies_declared].
    + intros k Hk. destruct (decide (k ∈ DEPENDENCIES)) as [Hin|Hout];
        [exact Hin|].
      rewrite pingDependencies_undeclared in Hk by exact Hout. auto.
Qed.

(** X17. A round of [pingDependencies] never removes an entry of
    [dependencyHealth], and when the probe of every declared dependency
    settles, every declared dependency has an entry afterwards. *)
Theorem pingDependencies_entries (w : World) (m : Machine) :
  (∀ k, is_Some (dependencyHealth m !! k) →
        is_Some (dependencyHealth (after (pingDeps w m)) !! k)) ∧
  (settles_all DEPENDENCIES w →
   ∀ dep, dep ∈ DEPENDENCIES →
          is_Some (dependencyHealth (after (pingDeps w m)) !! dep)).
Proof.
  split.
  - intros k Hk. unfold pingDependencies, Promise_allSettled.
    destruct (length DEPENDENCIES =? 0)%nat; [exact Hk|].
    apply settle_in_order_keeps. left. exact Hk.
  - intros Hall dep Hdep.
    destruct (settles_all_probed w dep Hall Hdep) as (Hlen & Hprobed).
    unfold pingDependencies, Promise_allSettled. rewrite Hlen.
    apply settle_in_order_keeps. right. exact Hprobed.
Qed.

(** X18. When the answer to a request does not depend on the moment it
    settles, the outcome of a round does not depend on the order in which
    the probes settle: every declared dependency is recorded with the
    liveness of its own answer, and two rounds that differ only in the
    settle order leave the same [dependencyHealth]. *)
Theorem pingDependencies_order_independent (w w' : World) (m : Machine) :
  stable_answers w →
  settles_all DEPENDENCIES w →
  settles_all DEPENDENCIES w' →
  (∀ n req, w_fetch w' n req = w_fetch w n req) →
  (∀ dep, dep ∈ DEPENDENCIES →
     dependencyHealth (after (pingDeps w m)) !! dep =
     Some (liveness (w_fetch w 0 (probe_request dep)))) ∧
  dependencyHealth (after (pingDeps w m)) =
  dependencyHealth (after (pingDeps w' m)).
Proof.
  intros Hstable Hall Hall' Hsame.
  assert (Hstable' : stable_answers w').
  { intros n n' req. rewrite !Hsame. apply Hstable. }
  assert (Hrecorded : ∀ v, stable_answers v → settles_all DEPENDENCIES v →
            ∀ dep, dep ∈ DEPENDENCIES →
              dependencyHealth (after (pingDeps v m)) !! dep =
              Some (liveness (w_fetch v 0 (probe_request dep)))).
  { intros v Hv Hvall dep Hdep.
    destruct (settles_all_probed v dep Hvall Hdep) as (Hlen & Hprobed).
    unfold pingDependencies, Promise_allSettled. rewrite Hlen.
    apply settle_in_order_stable; [exact Hv | right; exact Hprobed]. }
  split; [apply Hrecorded; assumption|].
  apply map_eq. intros k.
  destruct (decide (k ∈ DEPENDENCIES)) as [Hin|Hout].
  - rewrite !Hrecorded by assumption. rewrite Hsame. reflexivity.
  - rewrite !pingDependencies_undeclared by exact Hout. reflexivity.
Qed.

(** *** The [/health] document *)

(** X19. The status code and the [status] and [database] members of the
    document are decided by [isHealthy] alone and always agree
    (200/healthy/connected or 503/unhealthy/disconnected); the dependency
    records, the pool and the connection string have no influence on
    them. *)
Theorem health_gated_by_isHealthy_only (m m' : Machine) (now now' : string) :
  isHealthy m = isHealthy m' →
  (snapshot m now).1 = (snapshot m' now').1 ∧
  member (snapshot m now).2 "status" = member (snapshot m' now').2 "status" ∧
  member (snapshot m now).2 "database" =
    member (snapshot m' now').2 "database" ∧
  ((snapshot m now).1 = 200%Z ∧
   member (snapshot m now).2 "status" = Some (JStr "healthy") ∧
   member (snapshot m now).2 "database" = Some (JStr "connected") ∨
   (snapshot m now).1 = 503%Z ∧
   member (snapshot m now).2 "status" = Some (JStr "unhealthy") ∧
   member (snapshot m now).2 "database" = Some (JStr "disconnected")).
Proof.
  intros Hsame.
  unfold health, statusCode, to_json, healthStatus, member. simpl.
  rewrite <- Hsame. destruct (isHealthy m).
  - repeat split. left. repeat split.
  - repeat split. right. repeat split.
Qed.

(** X20. The [dependencies] member of the document mirrors
    [dependencyHealth] entry by entry: a URL is listed, with its recorded
    liveness, exactly when the map has an entry for it; the document also
    carries the service name and the timestamp it was given, and has no
    member besides the five. *)
Theorem health_document_members (m : Machine) (now : string) :
  (∃ listed,
     member (snapshot m now).2 "dependencies" = Some listed ∧
     ∀ url, member listed url = JBool <$> dependencyHealth m !! url) ∧
  member (snapshot m now).2 "service" = Some (JStr SERVICE_NAME) ∧
  member (snapshot m now).2 "timestamp" = Some (JStr now) ∧
  ∀ k, is_Some (member (snapshot m now).2 k) →
       k ∈ ["service"; "status"; "timestamp"; "database"; "dependencies"].
Proof.
  split; [|split; [reflexivity | split; [reflexivity|]]].
  - eexists. split; [apply snapshot_dependencies|].
    intros url. simpl. apply lookup_fmap.
  - intros k. unfold health, to_json, healthStatus, member. simpl.
    rewrite !lookup_insert, lookup_empty.
    repeat case_decide; subst; intros [v Hv];
      first [discriminate Hv | apply list_elem_of_In; simpl; auto 10].
Qed.

(** X21. When a pool is installed and its verification fails during a
    tick, the document served next says 503, [unhealthy] and
    [disconnected], whatever it said before; its [dependencies] member is
    the one it had. *)
Theorem failed_verification_is_served
    (w : World) (m : Machine) (pool : Pool) (now : string) :
  dbPool m = Some pool →
  verification_fails w →
  (snapshot (after (ping w m)) now).1 = 503%Z ∧
  member (snapshot (after (ping w m)) now).2 "status" =
    Some (JStr "unhealthy") ∧
  member (snapshot (after (ping w m)) now).2 "database" =
    Some (JStr "disconnected") ∧
  member (snapshot (after (ping w m)) now).2 "dependencies" =
    member (snapshot m now).2 "dependencies".
Proof.
  intros Hpool Hfails.
  assert (Hafter : after (ping w m) = set_dbPool None (set_isHealthy false m)).
  { rewrite ping_cases, Hpool. simpl. destruct Hfails as [Hc|Hq].
    - destruct (w_connect w); [destruct Hc | reflexivity].
    - destruct (w_connect w); [|reflexivity].
      destruct (w_query w); [destruct Hq | reflexivity]. }
  rewrite Hafter. repeat split.
Qed.

(** *** [shutdown] *)

Lemma shutdown_cases (w : World) (m : Machine) :
  shutdown w m =
  match dbPool m with
  | None => (Normal 0%Z, m, [])
  | Some pool =>
      match w_end w with
      | Normal _ => (Normal 0%Z, m, [EvPoolEnd (pool_id pool)])
      | Throw e => (Throw e, m, [EvPoolEnd (pool_id pool)])
      end
  end.
Proof.
  unfold shutdown, process_exit, Pool_end. run_M.
  destruct (dbPool m); [destruct (w_end w)|]; reflexivity.
Qed.

(** X22. [shutdown] reaches [process.exit(0)] exactly when no pool is
    installed or [end()] resolves. When [end()] rejects, the rejection
    leaves [shutdown] and the process is not exited by it. In every case
    the only external call is [end()] on the installed pool and the
    globals are left as they were ([dbPool] is not cleared). *)
Theorem shutdown_outcome (w : World) (m : Machine) :
  (result (shutdown w m) = Normal 0%Z ↔
   dbPool m = None ∨ w_end w = Normal tt) ∧
  (∀ e, dbPool m ≠ None → w_end w = Throw e →
        result (shutdown w m) = Throw e) ∧
  after (shutdown w m) = m ∧
  events (shutdown w m) = EvPoolEnd <$> held m.
Proof.
  rewrite shutdown_cases. unfold held.
  destruct (dbPool m) as [pool|]; simpl.
  - destruct (w_end w) as [[]|e0]; simpl; repeat split; auto.
    + intros e _. discriminate.
    + discriminate.
    + intros [H|H]; discriminate H.
    + intros e _ [= ->]. reflexivity.
  - repeat split; auto. intros e H. destruct H. reflexivity.
Qed.

(** X23. Whenever [shutdown] is called after a run, no pool is alive once
    it has made its calls: every pool the run constructed has had [end()]
    called on it, during the run or by [shutdown]. *)
Theorem shutdown_ends_every_pool
    (w0 : World) (ticks : list Tick) (w : World)
    (id : nat) (cfg : PoolConfig) :
  let history := (exec shutdown w (runs w0 ticks)).2 in
  alive history = [] ∧
  (In (EvPoolNew id cfg) history →
   ∃ p1 p2, history = p1 ++ EvPoolNew id cfg :: p2 ∧ In (EvPoolEnd id) p2).
Proof.
  intros history.
  assert (Hnone : alive history = []).
  { destruct (run_maintains_invariant DB_SECRET_ARN DEPENDENCIES AWS_REGION
                JSON_parse w0 ticks) as (_ & Halive).
    subst history. unfold exec. simpl. rewrite alive_app, Halive.
    rewrite shutdown_cases. unfold held.
    destruct (dbPool (runs w0 ticks).1) as [pool|]; [|reflexivity].
    destruct (w_end w); simpl; apply filter_own. }
  split; [exact Hnone|]. intros Hin.
  destruct (constructed_alive_or_ended history id cfg Hin) as [Halive|Hended].
  - rewrite Hnone in Halive. destruct Halive.
  - exact Hended.
Qed.

(** *** Start-up and what follows *)

Lemma step_dependencyHealth_keeps (r : Run) (t : Tick) (k : string) :
  is_Some (dependencyHealth r.1 !! k) →
  is_Some (dependencyHealth (step r t).1 !! k).
Proof.
  intros Hk. destruct t as [w|w]; simpl.
  - rewrite ping_dependencyHealth. exact Hk.
  - destruct (0 <? length DEPENDENCIES)%nat; [|exact Hk].
    unfold exec. simpl. unfold pingDependencies, Promise_allSettled.
    destruct (length DEPENDENCIES =? 0)%nat; [exact Hk|].
    apply settle_in_order_keeps. left. exact Hk.
Qed.

(** X24. Start-up never throws, whatever the collaborators answer; and when
    every probe of the start-up round settles, every declared dependency
    has an entry in [dependencyHealth] from the end of start-up on, after
    any ticks. *)
Theorem startup_lists_every_dependency (w0 : World) (ticks : list Tick) :
  result (boot w0 initial) = Normal tt ∧
  (settles_all DEPENDENCIES w0 →
   ∀ dep, dep ∈ DEPENDENCIES →
          is_Some (dependencyHealth (runs w0 ticks).1 !! dep)).
Proof.
  split.
  - rewrite main_cases. destruct (0 <? length DEPENDENCIES)%nat; reflexivity.
  - intros Hall dep Hdep.
    apply (run_ind DB_SECRET_ARN DEPENDENCIES AWS_REGION JSON_parse
             (λ r, is_Some (dependencyHealth r.1 !! dep))).
    + destruct (settles_all_probed w0 dep Hall Hdep) as (Hlen & Hprobed).
      assert (Hpos : (0 <? length DEPENDENCIES)%nat = true).
      { apply Nat.ltb_lt. apply Nat.eqb_neq in Hlen. lia. }
      unfold exec. simpl. rewrite main_cases, Hpos. unfold after at 1. simpl.
      unfold pingDependencies, Promise_allSettled. rewrite Hlen.
      apply settle_in_order_keeps. right. exact Hprobed.
    + intros r t Hr. apply step_dependencyHealth_keeps, Hr.
Qed.

(** X26. An entry of [dependencyHealth] is never removed: a key that has
    an entry at some point of a run has one after any further ticks. *)
Theorem dependency_entries_persist
    (w0 : World) (ticks more : list Tick) (k : string) :
  is_Some (dependencyHealth (runs w0 ticks).1 !! k) →
  is_Some (dependencyHealth (runs w0 (ticks ++ more)).1 !! k).
Proof.
  intros Hk. induction more as [|t more IH] using rev_ind.
  - rewrite app_nil_r. exact Hk.
  - rewrite app_assoc, run_snoc. apply step_dependencyHealth_keeps, IH.
Qed.

End Further.

(** ** The further properties at the concrete deployment *)

Abbreviation demo_fetch :=
  (fetchDatabaseCredentials Demo.arn Demo.region Demo.JSON_parse).
Abbreviation demo_tick :=
  (tick Demo.arn Demo.deps Demo.region Demo.JSON_parse).
Abbreviation demo_outage_run :=
  (demo_run Demo.world_db_down
     [TickDatabase Demo.world_db_down; TickDatabase Demo.world_up]).

Lemma missing_arn_never_healthy_witness :
  isHealthy (run (Some "") Demo.deps Demo.region Demo.JSON_parse
               Demo.world_up [TickDatabase Demo.world_up]).1 = false ∧
  dbPool (run (Some "") Demo.deps Demo.region Demo.JSON_parse
            Demo.world_up [TickDatabase Demo.world_up]).1 = None ∧
  Forall is_fetch (run (Some "") Demo.deps Demo.region Demo.JSON_parse
                     Demo.world_up [TickDatabase Demo.world_up]).2.
Proof.
  apply (missing_arn_never_healthy (Some "") Demo.deps Demo.region
           Demo.JSON_parse Demo.world_up [TickDatabase Demo.world_up]).
  reflexivity.
Defined.

Lemma fetch_success_shape_witness :
  truthy (Some (JStr "postgres://db")) = true ∧
  (∃ arn, Demo.arn = Some arn ∧ arn ≠ "" ∧
          events (demo_fetch Demo.world_up initial) =
            [EvGetSecretValue Demo.region arn]) ∧
  after (demo_fetch Demo.world_up initial) = initial.
Proof.
  apply (fetch_success_shape Demo.arn Demo.region Demo.JSON_parse
           Demo.world_up initial (Some (JStr "postgres://db"))).
  reflexivity.
Defined.

Lemma fetch_rethrows_witness :
  demo_fetch Demo.world_secret_down initial =
  (Throw (Rejected "AccessDeniedException"), initial,
   [EvGetSecretValue Demo.region "arn:aws:secretsmanager:demo"]).
Proof.
  apply (fetch_rethrows Demo.arn Demo.region Demo.JSON_parse
           Demo.world_secret_down initial (Rejected "AccessDeniedException"));
    reflexivity.
Defined.

Lemma fetch_rejects_unusable_secret_witness :
  result (demo_fetch Demo.world_bad_secret initial) = Throw SyntaxError.
Proof.
  apply (proj2 (fetch_rejects_unusable_secret Demo.arn Demo.region
                  Demo.JSON_parse Demo.world_bad_secret initial
                  (Some "postgres://db") eq_refl eq_refl) eq_refl).
Defined.

Lemma initializeDatabase_failed_fetch_witness :
  after (demo_init Demo.world_secret_down Demo.connected) =
    set_isHealthy false Demo.connected ∧
  Forall (λ ev, is_secret_request (Some ev))
    (events (demo_init Demo.world_secret_down Demo.connected)).
Proof.
  apply (initializeDatabase_failed_fetch Demo.arn Demo.region Demo.JSON_parse
           Demo.world_secret_down Demo.connected
           (Rejected "AccessDeniedException")).
  reflexivity.
Defined.

Lemma initializeDatabase_records_connection_string_witness :
  dbConnectionString (after (demo_init Demo.world_db_down initial)) =
    Some (JStr "postgres://db") ∧
  (is_Throw (w_new_pool Demo.world_db_down) →
   dbPool (after (demo_init Demo.world_db_down initial)) = dbPool initial).
Proof.
  apply (initializeDatabase_records_connection_string Demo.arn Demo.region
           Demo.JSON_parse Demo.world_db_down initial
           (Some (JStr "postgres://db"))).
  reflexivity.
Defined.


Lemma pingDatabase_failure_history_witness :
  events (demo_ping Demo.world_query_down Demo.connected) =
  [EvConnect 0; EvQuery 0 "SELECT 1"; EvPoolEnd 0].
Proof.
  apply (proj1 (pingDatabase_failure_history Demo.arn Demo.region
                  Demo.JSON_parse Demo.world_query_down Demo.connected
                  (mkPool 0 (pool_options (Some (JStr "postgres://db"))))
                  eq_refl) eq_refl I).
Defined.

Lemma healthy_implies_pool_witness : is_Some (dbPool demo_outage_run.1).
Proof.
  apply (healthy_implies_pool Demo.arn Demo.deps Demo.region Demo.JSON_parse
           Demo.world_db_down
           [TickDatabase Demo.world_db_down; TickDatabase Demo.world_up]).
  reflexivity.
Defined.

Lemma pool_built_from_connection_string_witness :
  pool_config (mkPool 1 (pool_options (Some (JStr "postgres://db")))) =
    pool_options (dbConnectionString demo_outage_run.1) ∧
  truthy (dbConnectionString demo_outage_run.1) = true.
Proof.
  apply (pool_built_from_connection_string Demo.arn Demo.deps Demo.region
           Demo.JSON_parse Demo.world_db_down
           [TickDatabase Demo.world_db_down; TickDatabase Demo.world_up]).
  reflexivity.
Defined.

Lemma demo_settles_all (order : list nat) :
  In 0%nat order → In 1%nat order →
  ∀ i, i < length Demo.deps → In i order.
Proof.
  intros H0 H1 i Hi. simpl in Hi.
  destruct i as [|[|i]]; [exact H0 | exact H1 | lia].
Defined.

Lemma pingDependencies_entries_witness :
  is_Some (dependencyHealth
             (after (pingDependencies Demo.deps Demo.world_db_down initial))
           !! "http://b").
Proof.
  apply (proj2 (pingDependencies_entries Demo.deps Demo.world_db_down initial)).
  - unfold settles_all. apply demo_settles_all; simpl; auto.
  - apply list_elem_of_In. simpl. auto.
Defined.

Lemma pingDependencies_order_independent_witness :
  (∀ dep, dep ∈ Demo.deps →
     dependencyHealth
       (after (pingDependencies Demo.deps Demo.world_up initial)) !! dep =
     Some true) ∧
  dependencyHealth (after (pingDependencies Demo.deps Demo.world_up initial)) =
  dependencyHealth
    (after (pingDependencies Demo.deps Demo.world_up_reordered initial)).
Proof.
  apply (pingDependencies_order_independent Demo.deps Demo.world_up
           Demo.world_up_reordered initial).
  - intros n n' req. reflexivity.
  - unfold settles_all. apply demo_settles_all; simpl; auto.
  - unfold settles_all. apply demo_settles_all; simpl; auto.
  - intros n req. reflexivity.
Defined.

Lemma health_gated_by_isHealthy_only_witness :
  (health Demo.name Demo.connected "t1").1 =
  (health Demo.name (set_isHealthy true initial) "t2").1.
Proof.
  apply (health_gated_by_isHealthy_only Demo.name Demo.connected
           (set_isHealthy true initial) "t1" "t2").
  reflexivity.
Defined.

Lemma failed_verification_is_served_witness :
  (health Demo.name (after (demo_ping Demo.world_db_down Demo.connected))
     "t").1 = 503%Z.
Proof.
  apply (failed_verification_is_served Demo.name Demo.arn Demo.region
           Demo.JSON_parse Demo.world_db_down Demo.connected
           (mkPool 0 (pool_options (Some (JStr "postgres://db")))) "t").
  - reflexivity.
  - left. exact I.
Defined.

Lemma startup_lists_every_dependency_witness :
  is_Some (dependencyHealth demo_outage_run.1 !! "http://b").
Proof.
  apply (proj2 (startup_lists_every_dependency Demo.arn Demo.deps Demo.region
                  Demo.JSON_parse Demo.world_db_down
                  [TickDatabase Demo.world_db_down;
                   TickDatabase Demo.world_up])).
  - unfold settles_all. apply demo_settles_all; simpl; auto.
  - apply list_elem_of_In. simpl. auto.
Defined.

Lemma dependency_entries_persist_witness :
  is_Some (dependencyHealth demo_outage_run.1 !! "http://a").
Proof.
  apply (dependency_entries_persist Demo.arn Demo.deps Demo.region
           Demo.JSON_parse Demo.world_db_down []
           [TickDatabase Demo.world_db_down; TickDatabase Demo.world_up]
           "http://a").
  vm_compute. eexists. reflexivity.
Defined.

Lemma pool_built_after_secret_fetch_witness :
  [EvGetSecretValue Demo.region "arn:aws:secretsmanager:demo"] =
    [EvGetSecretValue Demo.region (default "" Demo.arn)] ∧
  (∃ cs, credentials Demo.arn Demo.region Demo.JSON_parse Demo.world_up =
           Normal cs ∧ truthy cs = true ∧
         pool_options (Some (JStr "postgres://db")) = pool_options cs) ∧
  0%nat = pools_created initial ∧
  Forall (λ ev, used_pool ev = Some 0%nat) [EvConnect 0; EvRelease 0].
Proof.
  apply (pool_built_after_secret_fetch Demo.arn Demo.region Demo.JSON_parse
           Demo.world_up initial).
  reflexivity.
Defined.

(** ** The service on pg-pool *)

Section Refinement.

Set Default Proof Using "Type".

Variable DB_SECRET_ARN : option string.
Variable AWS_REGION : string.
Variable JSON_parse : string → option json.

Abbreviation fetchCreds := (fetchDatabaseCredentials DB_SECRET_ARN AWS_REGION JSON_parse).
Abbreviation init := (initializeDatabase DB_SECRET_ARN AWS_REGION JSON_parse).
Abbreviation ping := (pingDatabase DB_SECRET_ARN AWS_REGION JSON_parse).
Abbreviation creds := (credentials DB_SECRET_ARN AWS_REGION JSON_parse).
Abbreviation pg_init := (Pg.initializeDatabase DB_SECRET_ARN AWS_REGION JSON_parse).
Abbreviation pg_ping := (Pg.pingDatabase DB_SECRET_ARN AWS_REGION JSON_parse).
Abbreviation pg_cycle := (Pg.cycle DB_SECRET_ARN AWS_REGION JSON_parse).
Abbreviation pg_cycles := (Pg.cycles DB_SECRET_ARN AWS_REGION JSON_parse).

Ltac run_P :=
  unfold Pg.promise_catch, Pg.try_catch, Pg.Pool_connect, Pg.Pool_end,
    Pg.client_release, Pg.client_query, Pg.new_Pool, Pg.of_M,
    mbind, Pg.P_bind, mret, Pg.P_ret, client_query, new_Pool,
    M_bind, M_ret, emit, read, write, await;
  simpl.

Lemma pool_state_set (s : Pg.State) (pool : Pool) (st : Pg.PoolState) :
  Pg.pool_state (Pg.set_pool_state pool st s) pool = st.
Proof. unfold Pg.pool_state. simpl. rewrite lookup_insert_eq. reflexivity. Qed.

Lemma pool_state_globals (s : Pg.State) (m : Machine) (pool : Pool) :
  Pg.pool_state (Pg.set_globals m s) pool = Pg.pool_state s pool.
Proof. reflexivity. Qed.

(** A cycle that finds a pool installed, by cases on the state of the pool
    and the answers of the database. *)
Lemma pg_ping_installed (w : World) (s : Pg.State) (pool : Pool) :
  dbPool (Pg.globals s) = Some pool →
  let st := Pg.pool_state s pool in
  let id := pool_id pool in
  let m := Pg.globals s in
  pg_ping w s =
  if Pg.ending st then
    (Pg.Settled (Normal tt),
     Pg.set_globals (set_dbPool None (set_isHealthy false m)) s,
     [EvConnect id; EvPoolEnd id])
  else
    match w_connect w with
    | Throw _ =>
        let s1 :=
          Pg.set_pool_state pool
            {| Pg.checked_out := Pg.checked_out st; Pg.ending := true |}
            (Pg.set_globals (set_isHealthy false m) s) in
        if (Pg.checked_out st =? 0)%nat then
          (Pg.Settled (Normal tt),
           Pg.set_globals (set_dbPool None (set_isHealthy false m)) s1,
           [EvConnect id; EvPoolEnd id])
        else (Pg.Pending, s1, [EvConnect id; EvPoolEnd id])
    | Normal _ =>
        let s0 :=
          Pg.set_pool_state pool
            {| Pg.checked_out := S (Pg.checked_out st); Pg.ending := false |}
            s in
        match w_query w with
        | Throw _ =>
            (Pg.Pending,
             Pg.set_pool_state pool
               {| Pg.checked_out := S (Pg.checked_out st);
                  Pg.ending := true |}
               (Pg.set_globals (set_isHealthy false m) s0),
             [EvConnect id; EvQuery id "SELECT 1"; EvPoolEnd id])
        | Normal _ =>
            (Pg.Settled (Normal tt),
             Pg.set_globals (set_isHealthy true m)
               (Pg.set_pool_state pool
                  {| Pg.checked_out := Pg.checked_out st;
                     Pg.ending := false |} s0),
             [EvConnect id; EvQuery id "SELECT 1"; EvRelease id])
        end
    end.
Proof.
  destruct s as [m0 ps]. simpl. intros Hpool. unfold Pg.pingDatabase.
  unfold mbind at 1. unfold Pg.P_bind at 1. unfold Pg.of_M at 1.
  unfold read at 1. simpl. rewrite Hpool.
  run_P. unfold Pg.pool_state, Pg.set_pool_state, Pg.set_globals. simpl.
  destruct (ps !! pool_id pool) as [[co [|]]|] eqn:Hst; simpl.
  - rewrite Hpool. simpl. rewrite Hst. simpl. reflexivity.
  - destruct (w_connect w) as [[]|e]; simpl.
    + destruct (w_query w) as [[]|e]; simpl.
      * rewrite lookup_insert_eq. simpl. reflexivity.
      * rewrite Hpool. simpl. rewrite lookup_insert_eq. simpl. reflexivity.
    + rewrite Hpool. simpl. rewrite Hst. simpl.
      destruct (co =? 0)%nat; simpl; try destruct (w_end w); reflexivity.
  - destruct (w_connect w) as [[]|e]; simpl.
    + destruct (w_query w) as [[]|e]; simpl.
      * rewrite lookup_insert_eq. simpl. reflexivity.
      * rewrite Hpool. simpl. rewrite lookup_insert_eq. simpl. reflexivity.
    + rewrite Hpool. simpl. rewrite Hst. simpl.
      destruct (w_end w); reflexivity.
Qed.

(** Initialisation builds a pool of its own, so the bookkeeping of pg-pool
    changes nothing to it: same outcome, same globals, same calls as
    [initializeDatabase] above, and the pool it installs is idle. *)
Lemma pg_init_agrees (w : World) (s : Pg.State) :
  ∃ ps,
    pg_init w s =
    (Pg.Settled (result (init w (Pg.globals s))),
     Pg.mkState (after (init w (Pg.globals s))) ps,
     events (init w (Pg.globals s))) ∧
    (dbPool (Pg.globals s) = None →
     ∀ pool, dbPool (after (init w (Pg.globals s))) = Some pool →
             Pg.idle (Pg.mkState (after (init w (Pg.globals s))) ps) pool).
Proof.
  destruct s as [m0 ps]. simpl. rewrite init_cases.
  unfold Pg.initializeDatabase.
  unfold Pg.try_catch at 1. unfold mbind at 1. unfold Pg.P_bind at 1.
  unfold Pg.of_M at 1. simpl. rewrite (fetch_frame _ _ _ w m0).
  fold (credentials DB_SECRET_ARN AWS_REGION JSON_parse w).
  generalize (events (fetchCreds w initial)). intros t.
  destruct (creds w) as [cs|e]; simpl.
  - run_P. unfold Pg.pool_state, Pg.set_pool_state, Pg.set_globals. simpl.
    destruct (w_new_pool w) as [[]|]; simpl.
    + rewrite lookup_insert_eq. simpl.
      destruct (w_connect w) as [[]|]; simpl;
        rewrite ?lookup_insert_eq; simpl; rewrite ?app_nil_r;
        (eexists; split; [reflexivity|]);
        intros _ pool [= <-]; unfold Pg.idle, Pg.pool_state;
        simpl; rewrite lookup_insert_eq; split; reflexivity.
    + rewrite ?app_nil_r. eexists; split; [reflexivity|].
      intros Hnone pool Hsome. simpl in Hsome. congruence.
  - run_P. rewrite ?app_nil_r. eexists; split; [reflexivity|].
    intros Hnone pool Hsome. simpl in Hsome. congruence.
Qed.

Lemma pg_ping_absent (w : World) (s : Pg.State) :
  dbPool (Pg.globals s) = None → pg_ping w s = pg_init w s.
Proof.
  destruct s as [m0 ps]. simpl. intros Hpool. unfold Pg.pingDatabase.
  unfold mbind at 1. unfold Pg.P_bind at 1. unfold Pg.of_M at 1.
  unfold read at 1. simpl. rewrite Hpool. unfold Pg.set_globals. simpl.
  destruct (pg_init w _) as [[o s'] t]. reflexivity.
Qed.

(** X11. [pingDatabase] never throws, but it does not always return. Its
    call stays pending exactly when it finds a pool that is not ending
    and either the acquisition succeeds and the query rejects (the client
    acquired is then still checked out when [end()] is awaited) or the
    acquisition rejects while an earlier client is still checked out; in
    that case [isHealthy] is [false] and [dbPool] still holds the pool.
    It ends with [isHealthy = true] exactly when its branch succeeds:
    acquisition and query on a pool that is not ending, or the whole
    initialisation when no pool is installed. *)
Theorem pingDatabase_outcome (w : World) (s : Pg.State) :
  (Pg.outcome (pg_ping w s) = Pg.Settled (Normal tt) ∨
   Pg.outcome (pg_ping w s) = Pg.Pending) ∧
  (Pg.outcome (pg_ping w s) = Pg.Pending ↔
   ∃ pool,
     dbPool (Pg.globals s) = Some pool ∧
     Pg.ending (Pg.pool_state s pool) = false ∧
     (w_connect w = Normal tt ∧ is_Throw (w_query w) ∨
      is_Throw (w_connect w) ∧ Pg.checked_out (Pg.pool_state s pool) ≠ 0)) ∧
  (Pg.outcome (pg_ping w s) = Pg.Pending →
   isHealthy (Pg.globals (Pg.state_after (pg_ping w s))) = false ∧
   dbPool (Pg.globals (Pg.state_after (pg_ping w s))) =
     dbPool (Pg.globals s)) ∧
  (isHealthy (Pg.globals (Pg.state_after (pg_ping w s))) = true ↔
   match dbPool (Pg.globals s) with
   | Some pool =>
       Pg.ending (Pg.pool_state s pool) = false ∧
       w_connect w = Normal tt ∧ w_query w = Normal tt
   | None =>
       (∃ cs, creds w = Normal cs) ∧
       w_new_pool w = Normal tt ∧ w_connect w = Normal tt
   end).
Proof.
  destruct (dbPool (Pg.globals s)) as [pool|] eqn:Hpool.
  - rewrite (pg_ping_installed w s pool Hpool). simpl.
    destruct (Pg.ending (Pg.pool_state s pool)) eqn:Hending.
    + unfold Pg.outcome, Pg.state_after. simpl.
      split; [left; reflexivity|]. split; [|split; [discriminate|]].
      * split; [discriminate|].
        intros (pool' & [= <-] & Hne & _). congruence.
      * split; [discriminate|]. intros (H & _). discriminate H.
    + destruct (w_connect w) as [[]|e] eqn:Hconnect.
      * destruct (w_query w) as [[]|e] eqn:Hquery;
          unfold Pg.outcome, Pg.state_after; simpl.
        -- split; [left; reflexivity|]. split; [|split; [discriminate|]].
           ++ split; [discriminate|].
              intros (pool' & _ & _ & [(_ & [])|([] & _)]).
           ++ split; [auto|reflexivity].
        -- split; [right; reflexivity|]. split; [|split].
           ++ split; [|reflexivity]. intros _. exists pool.
              split; [reflexivity|]. split; [exact Hending|].
              left. split; [reflexivity | exact I].
           ++ intros _. split; [reflexivity | exact Hpool].
           ++ split; [discriminate|]. intros (_ & _ & H). discriminate H.
      * destruct (Pg.checked_out (Pg.pool_state s pool) =? 0)%nat eqn:Hco;
          unfold Pg.outcome, Pg.state_after; simpl.
        -- apply Nat.eqb_eq in Hco.
           split; [left; reflexivity|]. split; [|split; [discriminate|]].
           ++ split; [discriminate|].
              intros (pool' & [= <-] & _ & [(H & _)|(_ & H)]);
                [discriminate H | destruct (H Hco)].
           ++ split; [discriminate|]. intros (_ & H & _). discriminate H.
        -- apply Nat.eqb_neq in Hco.
           split; [right; reflexivity|]. split; [|split].
           ++ split; [|reflexivity]. intros _. exists pool.
              split; [reflexivity|]. split; [exact Hending|].
              right. split; [exact I | exact Hco].
           ++ intros _. split; [reflexivity | exact Hpool].
           ++ split; [discriminate|]. intros (_ & H & _). discriminate H.
  - rewrite (pg_ping_absent w s Hpool).
    destruct (pg_init_agrees w s) as (ps & -> & _).
    unfold Pg.outcome, Pg.state_after. simpl. rewrite init_cases.
    destruct (creds w) as [cs|e]; simpl.
    + destruct (w_new_pool w) as [[]|]; simpl.
      * destruct (w_connect w) as [[]|]; simpl.
        -- split; [left; reflexivity|]. split; [|split; [discriminate|]].
           ++ split; [discriminate|]. intros (pool & H & _). discriminate H.
           ++ split; [eauto | reflexivity].
        -- split; [left; reflexivity|]. split; [|split; [discriminate|]].
           ++ split; [discriminate|]. intros (pool & H & _). discriminate H.
           ++ split; [discriminate|]. intros (_ & _ & H). discriminate H.
      * split; [left; reflexivity|]. split; [|split; [discriminate|]].
        -- split; [discriminate|]. intros (pool & H & _). discriminate H.
        -- split; [discriminate|]. intros (_ & H & _). discriminate H.
    + split; [left; reflexivity|]. split; [|split; [discriminate|]].
      * split; [discriminate|]. intros (pool & H & _). discriminate H.
      * split; [discriminate|]. intros ((cs & H) & _). discriminate H.
Qed.

(** X25. A pool whose first [connect()] failed during initialisation stays
    installed, and the next cycle verifies it instead of initialising
    again: every external call of that cycle is made on that pool, without
    a new secret fetch or pool. If the database answers by then, that pool
    becomes the working pool. If the acquisition fails again, the pool is
    ended and [dbPool] is cleared. If the acquisition succeeds and the
    query fails, [end()] is awaited with the client still checked out: the
    cycle stays pending and the pool, now ending, stays installed. *)
Theorem leftover_pool_is_verified_next
    (w w' : World) (s : Pg.State) (cs : jsval) (e : JsError) :
  creds w = Normal cs →
  w_new_pool w = Normal tt →
  w_connect w = Throw e →
  let pool := mkPool (pools_created (Pg.globals s)) (pool_options cs) in
  let s1 := Pg.state_after (pg_init w s) in
  dbPool (Pg.globals s1) = Some pool ∧
  Forall (λ ev, used_pool ev = Some (pool_id pool)) (Pg.calls (pg_ping w' s1)) ∧
  (w_connect w' = Normal tt → w_query w' = Normal tt →
   Pg.outcome (pg_ping w' s1) = Pg.Settled (Normal tt) ∧
   isHealthy (Pg.globals (Pg.state_after (pg_ping w' s1))) = true ∧
   dbPool (Pg.globals (Pg.state_after (pg_ping w' s1))) = Some pool) ∧
  (is_Throw (w_connect w') →
   Pg.outcome (pg_ping w' s1) = Pg.Settled (Normal tt) ∧
   In (EvPoolEnd (pool_id pool)) (Pg.calls (pg_ping w' s1)) ∧
   dbPool (Pg.globals (Pg.state_after (pg_ping w' s1))) = None) ∧
  (w_connect w' = Normal tt → is_Throw (w_query w') →
   Pg.outcome (pg_ping w' s1) = Pg.Pending ∧
   isHealthy (Pg.globals (Pg.state_after (pg_ping w' s1))) = false ∧
   dbPool (Pg.globals (Pg.state_after (pg_ping w' s1))) = Some pool ∧
   Pg.ending (Pg.pool_state (Pg.state_after (pg_ping w' s1)) pool) = true).
Proof.
  intros Hcreds Hnew Hconnect pool s1.
  destruct (pg_init_agrees w s) as (ps & Hinit & _).
  assert (Hs1 : ∃ ps1, s1 = Pg.mkState
      (set_isHealthy false
         (set_dbPool (Some pool)
            (set_pools_created (S (pools_created (Pg.globals s)))
               (set_dbConnectionString cs (Pg.globals s))))) ps1 ∧
      ps1 !! pool_id pool = Some Pg.fresh).
  { subst s1. clear Hinit ps. destruct s as [m0 ps]. simpl in *.
    unfold Pg.initializeDatabase.
    unfold Pg.try_catch at 1. unfold mbind at 1. unfold Pg.P_bind at 1.
    unfold Pg.of_M at 1. simpl. rewrite (fetch_frame _ _ _ w m0).
    unfold credentials in Hcreds. rewrite Hcreds. simpl.
    run_P. unfold Pg.pool_state, Pg.set_pool_state, Pg.set_globals. simpl.
    rewrite Hnew. simpl. rewrite lookup_insert_eq. simpl.
    rewrite Hconnect. simpl. eexists. split; [reflexivity|].
    apply lookup_insert_eq. }
  destruct Hs1 as (ps1 & Hs1 & Hfresh).
  assert (Hpool : dbPool (Pg.globals s1) = Some pool).
  { rewrite Hs1. reflexivity. }
  assert (Hstate : Pg.pool_state s1 pool = Pg.fresh).
  { rewrite Hs1. unfold Pg.pool_state. simpl. simpl in Hfresh.
    rewrite Hfresh. reflexivity. }
  split; [exact Hpool|].
  rewrite (pg_ping_installed w' s1 pool Hpool). simpl. rewrite Hstate. simpl.
  split; [|split; [|split]].
  - destruct (w_connect w'), (w_query w'); repeat constructor.
  - intros -> ->. unfold Pg.outcome, Pg.state_after. simpl. auto.
  - intros Hc. destruct (w_connect w'); [destruct Hc|].
    unfold Pg.outcome, Pg.state_after, Pg.calls. simpl. auto.
  - intros -> Hq. destruct (w_query w'); [destruct Hq|].
    unfold Pg.outcome, Pg.state_after. simpl.
    split; [reflexivity|]. split; [reflexivity|]. split; [exact Hpool|].
    unfold Pg.pool_state. simpl. rewrite lookup_insert_eq. reflexivity.
Qed.

(** One cycle on pg-pool coincides with the cycle above as long as the
    pool found is idle and the cycle does not leave a client checked out. *)
Lemma pg_cycle_agrees (w : World) (s : Pg.State) :
  (∀ pool, dbPool (Pg.globals s) = Some pool → Pg.idle s pool) →
  (w_connect w = Normal tt → w_query w = Normal tt) →
  Pg.outcome (pg_ping w s) = Pg.Settled (result (ping w (Pg.globals s))) ∧
  Pg.globals (Pg.state_after (pg_ping w s)) = after (ping w (Pg.globals s)) ∧
  Pg.calls (pg_ping w s) = events (ping w (Pg.globals s)) ∧
  (∀ pool, dbPool (after (ping w (Pg.globals s))) = Some pool →
           Pg.idle (Pg.state_after (pg_ping w s)) pool).
Proof.
  intros Hidle Hquery. rewrite ping_cases.
  destruct (dbPool (Pg.globals s)) as [pool|] eqn:Hpool.
  - destruct (Hidle pool eq_refl) as (Hending & Hco).
    rewrite (pg_ping_installed w s pool Hpool). simpl.
    rewrite Hending, Hco. simpl.
    destruct (w_connect w) as [[]|e]; simpl.
    + rewrite (Hquery eq_refl).
      unfold Pg.outcome, Pg.state_after, Pg.calls. simpl.
      split; [reflexivity | split; [reflexivity | split; [reflexivity|]]].
      intros pool' Hpool'. rewrite Hpool in Hpool'.
      injection Hpool' as <-. unfold Pg.idle, Pg.pool_state. simpl.
      rewrite lookup_insert_eq. split; reflexivity.
    + unfold Pg.outcome, Pg.state_after, Pg.calls. simpl.
      split; [reflexivity | split; [reflexivity | split; [reflexivity|]]].
      intros pool' Hpool'. discriminate Hpool'.
  - rewrite (pg_ping_absent w s Hpool).
    destruct (pg_init_agrees w s) as (ps & -> & Hnew).
    unfold Pg.outcome, Pg.state_after, Pg.calls. simpl.
    split; [reflexivity | split; [reflexivity | split; [reflexivity|]]].
    exact (Hnew Hpool).
Qed.

(** X27. Over any sequence of cycles in which every successful
    acquisition is followed by a successful query, starting from a state
    whose pool (if any) is idle, the globals reached on pg-pool are those
    reached when [end()] is taken to settle: the two descriptions of
    [pingDatabase] differ only from the first failed query on. *)
Theorem refinement_agrees_until_failed_query
    (s : Pg.State) (ws : list World) :
  (∀ pool, dbPool (Pg.globals s) = Some pool → Pg.idle s pool) →
  Forall (λ w, w_connect w = Normal tt → w_query w = Normal tt) ws →
  Pg.globals (pg_cycles s ws) =
  fold_left (λ m w, after (ping w m)) ws (Pg.globals s).
Proof.
  intros Hidle Hws. revert s Hidle.
  induction Hws as [|w ws Hw _ IH]; intros s Hidle; [reflexivity|].
  destruct (pg_cycle_agrees w s Hidle Hw) as (_ & Hglobals & _ & Hnext).
  change (Pg.globals (pg_cycles (pg_cycle s w) ws) =
          fold_left (λ m w, after (ping w m)) ws
            (after (ping w (Pg.globals s)))).
  rewrite IH.
  - unfold Pg.cycle. rewrite Hglobals. reflexivity.
  - intros pool Hpool. apply Hnext. rewrite <- Hglobals. exact Hpool.
Qed.

(** X28. On pg-pool the service heals within two cycles of the recovery
    of the backing store, from any state: the first cycle leaves
    [isHealthy = true] unless it finds a pool on which [end()] has been
    called; in that case it clears [dbPool], and the second cycle
    initialises again and leaves [isHealthy = true]. *)
Theorem self_healing_within_two_cycles (s : Pg.State) (w1 w2 : World) :
  recovered DB_SECRET_ARN AWS_REGION JSON_parse w1 →
  recovered DB_SECRET_ARN AWS_REGION JSON_parse w2 →
  ((∀ pool, dbPool (Pg.globals s) = Some pool →
            Pg.ending (Pg.pool_state s pool) = false) →
   isHealthy (Pg.globals (pg_cycle s w1)) = true) ∧
  ((∃ pool, dbPool (Pg.globals s) = Some pool ∧
            Pg.ending (Pg.pool_state s pool) = true) →
   isHealthy (Pg.globals (pg_cycle s w1)) = false ∧
   dbPool (Pg.globals (pg_cycle s w1)) = None) ∧
  isHealthy (Pg.globals (pg_cycles s [w1; w2])) = true.
Proof.
  intros Hw1 Hw2.
  assert (Hheal : ∀ w s,
    recovered DB_SECRET_ARN AWS_REGION JSON_parse w →
    (∀ pool, dbPool (Pg.globals s) = Some pool →
             Pg.ending (Pg.pool_state s pool) = false) →
    isHealthy (Pg.globals (pg_cycle s w)) = true ∧
    (∀ pool, dbPool (Pg.globals (pg_cycle s w)) = Some pool →
             Pg.ending (Pg.pool_state (pg_cycle s w) pool) = false)).
  { clear. intros w s ((cs & Hcs) & Hnew & Hconnect & Hquery) Hending.
    unfold Pg.cycle. destruct (dbPool (Pg.globals s)) as [pool|] eqn:Hpool.
    - rewrite (pg_ping_installed w s pool Hpool). simpl.
      rewrite (Hending pool eq_refl), Hconnect, Hquery.
      unfold Pg.state_after. simpl. split; [reflexivity|].
      intros pool' Hpool'. rewrite Hpool in Hpool'. injection Hpool' as <-.
      unfold Pg.pool_state. simpl. rewrite lookup_insert_eq. reflexivity.
    - rewrite (pg_ping_absent w s Hpool).
      destruct (pg_init_agrees w s) as (ps & -> & Hidle).
      unfold Pg.state_after. simpl. split.
      + rewrite init_cases, Hcs, Hnew, Hconnect. reflexivity.
      + intros pool Hsome. apply (Hidle Hpool pool Hsome). }
  assert (Hclear : ∀ w s pool,
    dbPool (Pg.globals s) = Some pool →
    Pg.ending (Pg.pool_state s pool) = true →
    isHealthy (Pg.globals (pg_cycle s w)) = false ∧
    dbPool (Pg.globals (pg_cycle s w)) = None).
  { clear. intros w s pool Hpool Hending. unfold Pg.cycle.
    rewrite (pg_ping_installed w s pool Hpool). simpl. rewrite Hending.
    unfold Pg.state_after. simpl. split; reflexivity. }
  split; [|split].
  - intros Hending. apply (Hheal w1 s Hw1 Hending).
  - intros (pool & Hpool & Hending). apply (Hclear w1 s pool Hpool Hending).
  - unfold Pg.cycles. simpl.
    destruct (dbPool (Pg.globals s)) as [pool|] eqn:Hpool.
    + destruct (Pg.ending (Pg.pool_state s pool)) eqn:Hending.
      * destruct (Hclear w1 s pool Hpool Hending) as (_ & Hnone).
        apply Hheal; [exact Hw2|]. intros pool' Hpool'.
        fold pg_cycle in Hpool'. congruence.
      * apply Hheal; [exact Hw2|]. apply Hheal; [exact Hw1|].
        intros pool' Hpool'. congruence.
    + apply Hheal; [exact Hw2|]. apply Hheal; [exact Hw1|].
      intros pool' Hpool'. congruence.
Qed.

End Refinement.

(** ** The service on pg-pool at the concrete deployment *)

Abbreviation demo_pg_init :=
  (Pg.initializeDatabase Demo.arn Demo.region Demo.JSON_parse).
Abbreviation demo_pg_ping :=
  (Pg.pingDatabase Demo.arn Demo.region Demo.JSON_parse).
Abbreviation demo_pg_cycle :=
  (Pg.cycle Demo.arn Demo.region Demo.JSON_parse).
Abbreviation demo_pg_cycles :=
  (Pg.cycles Demo.arn Demo.region Demo.JSON_parse).
Abbreviation demo_pg_start :=
  (Pg.start Demo.arn Demo.region Demo.JSON_parse).
Abbreviation demo_pool :=
  (mkPool 0 (pool_options (Some (JStr "postgres://db")))).
Abbreviation demo_connected := (Pg.mkState Demo.connected ∅).

(** C5. With a pool installed, an acquisition that succeeds and a query
    that rejects, [pingDatabase] sets [isHealthy] to [false] and calls
    [end()] without having released the client it acquired; on pg-pool
    that [end()] does not settle, so the call neither returns nor reaches
    [dbPool = null]: the pool, now ending, is still installed. *)
Lemma pingDatabase_failed_query_stays_pending :
  Pg.outcome (demo_pg_ping Demo.world_query_down demo_connected) = Pg.Pending ∧
  isHealthy (Pg.globals (Pg.state_after
    (demo_pg_ping Demo.world_query_down demo_connected))) = false ∧
  dbPool (Pg.globals (Pg.state_after
    (demo_pg_ping Demo.world_query_down demo_connected))) = Some demo_pool ∧
  Pg.calls (demo_pg_ping Demo.world_query_down demo_connected) =
    [EvConnect 0; EvQuery 0 "SELECT 1"; EvPoolEnd 0] ∧
  Pg.pool_state (Pg.state_after
    (demo_pg_ping Demo.world_query_down demo_connected)) demo_pool =
    {| Pg.checked_out := 1; Pg.ending := true |}.
Proof. vm_compute. repeat split. Qed.

(** C2. The service starts healthy; in one cycle the acquisition succeeds
    and the query rejects; the backing store then recovers. The first
    cycle after the recovery finds the pool still installed and ending:
    its [connect()] is rejected by the pool, [isHealthy] stays [false]
    (503 is served) and [dbPool] is cleared. Only the second cycle after
    the recovery initialises again and sets [isHealthy] to [true]. *)
Lemma first_cycle_after_recovery_stays_unhealthy :
  recovered Demo.arn Demo.region Demo.JSON_parse Demo.world_up ∧
  isHealthy (Pg.globals (demo_pg_start Demo.world_up)) = true ∧
  isHealthy (Pg.globals (demo_pg_cycles (demo_pg_start Demo.world_up)
    [Demo.world_query_down])) = false ∧
  dbPool (Pg.globals (demo_pg_cycles (demo_pg_start Demo.world_up)
    [Demo.world_query_down])) = Some demo_pool ∧
  isHealthy (Pg.globals (demo_pg_cycles (demo_pg_start Demo.world_up)
    [Demo.world_query_down; Demo.world_up])) = false ∧
  statusCode (Pg.globals (demo_pg_cycles (demo_pg_start Demo.world_up)
    [Demo.world_query_down; Demo.world_up])) = 503%Z ∧
  dbPool (Pg.globals (demo_pg_cycles (demo_pg_start Demo.world_up)
    [Demo.world_query_down; Demo.world_up])) = None ∧
  isHealthy (Pg.globals (demo_pg_cycles (demo_pg_start Demo.world_up)
    [Demo.world_query_down; Demo.world_up; Demo.world_up])) = true.
Proof.
  split.
  - split; [exists (Some (JStr "postgres://db")); reflexivity|].
    repeat split.
  - vm_compute. repeat split.
Qed.

Lemma leftover_pool_is_verified_next_witness :
  Pg.outcome
    (demo_pg_ping Demo.world_query_down
       (Pg.state_after
          (demo_pg_init Demo.world_db_down (Pg.mkState initial ∅)))) =
  Pg.Pending.
Proof.
  destruct (leftover_pool_is_verified_next Demo.arn Demo.region
              Demo.JSON_parse Demo.world_db_down Demo.world_query_down
              (Pg.mkState initial ∅) (Some (JStr "postgres://db"))
              (Rejected "ECONNREFUSED") eq_refl eq_refl eq_refl)
    as (_ & _ & _ & _ & Hpending).
  apply Hpending; [reflexivity | exact I].
Defined.

Lemma refinement_agrees_until_failed_query_witness :
  Pg.globals
    (demo_pg_cycles demo_connected
       [Demo.world_up; Demo.world_db_down; Demo.world_up]) =
  fold_left (λ m w, after (demo_ping w m))
    [Demo.world_up; Demo.world_db_down; Demo.world_up] Demo.connected.
Proof.
  apply (refinement_agrees_until_failed_query Demo.arn Demo.region
           Demo.JSON_parse demo_connected
           [Demo.world_up; Demo.world_db_down; Demo.world_up]).
  - intros pool [= <-]. split; reflexivity.
  - repeat constructor; simpl; intros H; discriminate H.
Defined.

Lemma self_healing_within_two_cycles_witness :
  isHealthy
    (Pg.globals
       (demo_pg_cycles (demo_pg_cycle demo_connected Demo.world_query_down)
          [Demo.world_up; Demo.world_up])) = true.
Proof.
  apply (self_healing_within_two_cycles Demo.arn Demo.region Demo.JSON_parse
           (demo_pg_cycle demo_connected Demo.world_query_down)
           Demo.world_up Demo.world_up).
  - split; [exists (Some (JStr "postgres://db")); reflexivity|].
    repeat split.
  - split; [exists (Some (JStr "postgres://db")); reflexivity|].
    repeat split.
Defined.
